(** * mangadex.url_models: the HTTP request gateway [URLRequest]

    A shallow embedding of [mangadex/url_models.py] and the properties of
    its behaviour: parameter encoding, method dispatch, response
    interpretation and the shared session.

    Conventions of the embedding.
    - A Python [str] is a Rocq [string] holding the UTF-8 encoding of the
      text; a Python [bytes] is a [list byte].  [bytes.decode("utf-8")] is
      therefore a validity check followed by a change of type, and it fails
      (UnicodeDecodeError) on ill-formed input as the strict codec does.
    - A Python [dict] is an association list in insertion order; a dict has
      no duplicate keys ([dict_wf]).
    - Exceptions are values of [exn]; a call returns [Raise e] or [Return a]
      together with the new world.  The world holds the class attribute
      [URLRequest._session], the object allocator and the trace of calls
      made to the outside (transport, logging, JSON decoder).
    - The limits of the interpreter that a caller can reach with a long
      number or a deep body, the recursion limit and the digit limit of
      [int], are a parameter [limits] of everything that runs
      [json.loads] or [urlencode]. *)

From Stdlib Require Import String Ascii List ZArith NArith Lia Bool.
From Stdlib Require Import Strings.Byte DecimalString.
Import ListNotations.

Open Scope string_scope.
Open Scope list_scope.

(* ================================================================= *)
(** ** Text and bytes *)

Definition bytes := list byte.

Definition encode_utf8 (s : string) : bytes := list_byte_of_string s.

Definition in_range (lo hi : N) (b : byte) : bool :=
  (lo <=? Byte.to_N b)%N && (Byte.to_N b <=? hi)%N.

(** A continuation byte. *)
Definition cont (b : byte) : bool := in_range 128 191 b.

(** Well-formed UTF-8 (Unicode, table 3-7), one code point after the
    other: no overlong forms, no surrogates, nothing above U+10FFFF. *)
Fixpoint utf8_valid (bs : bytes) : bool :=
  match bs with
  | [] => true
  | b0 :: r0 =>
      if in_range 0 127 b0 then utf8_valid r0
      else match r0 with
      | [] => false
      | b1 :: r1 =>
          if in_range 194 223 b0 then cont b1 && utf8_valid r1
          else match r1 with
          | [] => false
          | b2 :: r2 =>
              if in_range 224 224 b0 then in_range 160 191 b1 && cont b2 && utf8_valid r2
              else if in_range 225 236 b0 then cont b1 && cont b2 && utf8_valid r2
              else if in_range 237 237 b0 then in_range 128 159 b1 && cont b2 && utf8_valid r2
              else if in_range 238 239 b0 then cont b1 && cont b2 && utf8_valid r2
              else match r2 with
              | [] => false
              | b3 :: r3 =>
                  if in_range 240 240 b0 then in_range 144 191 b1 && cont b2 && cont b3 && utf8_valid r3
                  else if in_range 241 243 b0 then cont b1 && cont b2 && cont b3 && utf8_valid r3
                  else if in_range 244 244 b0 then in_range 128 143 b1 && cont b2 && cont b3 && utf8_valid r3
                  else false
              end
          end
      end
  end.

(** [b.decode("utf-8")]: [None] stands for UnicodeDecodeError. *)
Definition decode_utf8 (b : bytes) : option string :=
  if utf8_valid b then Some (string_of_list_byte b) else None.

Definition is_lower (c : ascii) : bool :=
  (97 <=? nat_of_ascii c)%nat && (nat_of_ascii c <=? 122)%nat.

Definition is_upper (c : ascii) : bool :=
  (65 <=? nat_of_ascii c)%nat && (nat_of_ascii c <=? 90)%nat.

Definition upper_char (c : ascii) : ascii :=
  if is_lower c then ascii_of_nat (nat_of_ascii c - 32) else c.

(** The characters outside ASCII whose upper-case form is made of ASCII
    letters, in their UTF-8 form: U+00DF, U+0131, U+017F, and the ligatures
    U+FB00 to U+FB06. *)
Definition upper2 (c0 c1 : ascii) : option string :=
  match nat_of_ascii c0, nat_of_ascii c1 with
  | 195, 159 => Some "SS"
  | 196, 177 => Some "I"
  | 197, 191 => Some "S"
  | _, _ => None
  end.

Definition upper3 (c0 c1 c2 : ascii) : option string :=
  match nat_of_ascii c0, nat_of_ascii c1, nat_of_ascii c2 with
  | 239, 172, 128 => Some "FF"
  | 239, 172, 129 => Some "FI"
  | 239, 172, 130 => Some "FL"
  | 239, 172, 131 => Some "FFI"
  | 239, 172, 132 => Some "FFL"
  | 239, 172, 133 => Some "ST"
  | 239, 172, 134 => Some "ST"
  | _, _, _ => None
  end.

(** [str.upper()].  ASCII letters and the ten characters above are
    upper-cased; every other non-ASCII character is left as it is (its
    upper-case form is not ASCII either). *)
Fixpoint upper (s : string) : string :=
  match s with
  | EmptyString => EmptyString
  | String c0 r0 =>
      let plain := String (upper_char c0) (upper r0) in
      match r0 with
      | EmptyString => plain
      | String c1 r1 =>
          match upper2 c0 c1 with
          | Some u => u ++ upper r1
          | None =>
              match r1 with
              | EmptyString => plain
              | String c2 r2 =>
                  match upper3 c0 c1 c2 with
                  | Some u => u ++ upper r2
                  | None => plain
                  end
              end
          end
      end
  end.

(** The case-insensitive comparison: equal once both are upper-cased. *)
Definition eq_nocase (s t : string) : bool := String.eqb (upper s) (upper t).

(* ================================================================= *)
(** ** Python dictionaries *)

Definition dict (V : Type) := list (string * V).

Fixpoint dict_get {V} (k : string) (d : dict V) : option V :=
  match d with
  | [] => None
  | (k', v) :: r => if String.eqb k k' then Some v else dict_get k r
  end.

Definition dict_mem {V} (k : string) (d : dict V) : bool :=
  match dict_get k d with Some _ => true | None => false end.

(** [d[k] = v]: an existing key keeps its place, a new one goes last. *)
Fixpoint dict_set {V} (k : string) (v : V) (d : dict V) : dict V :=
  match d with
  | [] => [(k, v)]
  | (k', v') :: r => if String.eqb k k' then (k, v) :: r else (k', v') :: dict_set k v r
  end.

Definition keys {V} (d : dict V) : list string := map fst d.

Definition dict_wf {V} (d : dict V) : Prop := NoDup (keys d).

(* ================================================================= *)
(** ** Request parameters and [urllib.parse.urlencode] *)

(** The values a parameter mapping holds: [None], text, bytes, integers and
    booleans, and lists or tuples of those (floats are left out, and so are
    sequences nested in sequences). *)
Inductive scalar :=
| SNone
| SStr (s : string)
| SBytes (b : bytes)
| SInt (n : Z)
| SBool (b : bool).

Inductive pvalue :=
| Scalar (s : scalar)
| PyList (items : list scalar)
| PyTuple (items : list scalar).

Definition params_t := dict pvalue.
Definition headers_t := dict string.

(** [str(n)] and [str(b)] for integers and booleans: the text, when [str]
    gives one (for an integer with more digits than the interpreter allows
    it raises, see [quote_value_error]). *)
Definition str_of_int (n : Z) : string := NilZero.string_of_int (Z.to_int n).

Definition str_of_bool (b : bool) : string := if b then "True" else "False".

(** [quote_plus(_, safe='')]: letters, digits and [_.-~] stay, a space
    becomes [+], every other byte becomes [%XX] in upper-case hexadecimal. *)
Definition always_safe (b : byte) : bool :=
  in_range 65 90 b || in_range 97 122 b || in_range 48 57 b
  || in_range 95 95 b || in_range 46 46 b || in_range 45 45 b || in_range 126 126 b.

Definition hex_digit (n : N) : ascii :=
  if (n <? 10)%N then ascii_of_N (48 + n) else ascii_of_N (55 + n).

Definition quote_byte (b : byte) : string :=
  if always_safe b then String (ascii_of_byte b) EmptyString
  else if in_range 32 32 b then "+"
  else String "%" (String (hex_digit (Byte.to_N b / 16))
                  (String (hex_digit (Byte.to_N b mod 16)) EmptyString)).

Fixpoint quote_from_bytes (bs : bytes) : string :=
  match bs with
  | [] => EmptyString
  | b :: r => quote_byte b ++ quote_from_bytes r
  end.

Definition quote_plus (s : string) : string := quote_from_bytes (encode_utf8 s).

(** The value side of [urlencode]: bytes are quoted as they are
    ([isinstance(v, bytes)]), anything else goes through [str] first.
    [quote_value], [urlencode], [__encode_parameters] and [__build_url]
    give the text that is written when nothing raises; what [urlencode]
    raises, and when, is [urlencode_error] below, and [build_url] puts the
    two together. *)
Definition quote_value (v : scalar) : string :=
  match v with
  | SBytes b => quote_from_bytes b
  | SNone => quote_plus "None"
  | SStr s => quote_plus s
  | SInt n => quote_plus (str_of_int n)
  | SBool b => quote_plus (str_of_bool b)
  end.

Definition encode_pair (kv : string * scalar) : string :=
  quote_plus (fst kv) ++ "=" ++ quote_value (snd kv).

(** ['&'.join(l)] *)
Fixpoint join_amp (l : list string) : string :=
  match l with
  | [] => EmptyString
  | [s] => s
  | s :: r => s ++ "&" ++ join_amp r
  end.

Definition urlencode (query : list (string * scalar)) : string :=
  join_amp (map encode_pair query).

(** [URLRequest.__encode_parameters]: the loop over [params.items()] with
    its accumulator [params_tuple]. *)
Definition encode_step (acc : list (string * scalar)) (kv : string * pvalue)
  : list (string * scalar) :=
  let '(k, v) := kv in
  match v with
  | Scalar SNone => acc
  | PyList items | PyTuple items => acc ++ map (fun item => (k, item)) items
  | Scalar s => acc ++ [(k, s)]
  end.

Definition params_tuple (params : params_t) : list (string * scalar) :=
  fold_left encode_step params [].

Definition __encode_parameters (params : params_t) : string :=
  urlencode (params_tuple params).

(** [URLRequest.__build_url]: the conditional expression tests the mapping,
    [url + "?" + ... if params else url]. *)
Definition __build_url (url : string) (params : params_t) : string :=
  match params with
  | [] => url
  | _ :: _ => url ++ "?" ++ __encode_parameters params
  end.

(** Lines 49-50 of [request_url]: when some value is [bytes], the mapping is
    rebuilt with every [bytes] value decoded; values inside lists are not
    looked at.  [None] stands for the UnicodeDecodeError of a value that is
    not UTF-8. *)
Definition is_bytes (v : pvalue) : bool :=
  match v with Scalar (SBytes _) => true | _ => false end.

Definition decode_value (v : pvalue) : option pvalue :=
  match v with
  | Scalar (SBytes b) =>
      match decode_utf8 b with
      | Some s => Some (Scalar (SStr s))
      | None => None
      end
  | _ => Some v
  end.

Fixpoint decode_items (params : params_t) : option params_t :=
  match params with
  | [] => Some []
  | (k, v) :: r =>
      match decode_value v with
      | None => None
      | Some v' =>
          match decode_items r with
          | None => None
          | Some r' => Some ((k, v') :: r')
          end
      end
  end.

Definition decode_params (params : params_t) : option params_t :=
  if existsb (fun kv => is_bytes (snd kv)) params
  then decode_items params
  else Some params.

(* ================================================================= *)
(** ** JSON values and [json.loads] *)

(** What [json.loads] builds: [None], [bool], [int], [float] (kept as its
    literal), [str], [list] and [dict]. *)
#[local] Set Warnings "-register-all".
Inductive json :=
| JNull
| JBool (b : bool)
| JInt (n : Z)
| JFloat (literal : string)
| JStr (s : string)
| JList (items : list json)
| JDict (d : list (string * json)).

Inductive token :=
| TLBrace | TRBrace | TLBracket | TRBracket | TColon | TComma
| TString (s : string)
| TAtom (s : string).

(** Pieces of a string literal: a character taken as it is, or the 16-bit
    unit of a [\uXXXX] escape. *)
Inductive sitem :=
| Raw (c : ascii)
| U16 (n : N).

Inductive lex_mode :=
| LTop
| LAtom (acc : list ascii)
| LStr (acc : list sitem)
| LEsc (acc : list sitem)
| LHex (acc : list sitem) (digits : list N).

Definition dquote : ascii := "034"%char.

Definition is_ws (c : ascii) : bool :=
  Ascii.eqb c " " || Ascii.eqb c "009" || Ascii.eqb c "010" || Ascii.eqb c "013".

Definition is_digit (c : ascii) : bool :=
  (48 <=? nat_of_ascii c)%nat && (nat_of_ascii c <=? 57)%nat.

Definition is_atom_char (c : ascii) : bool :=
  is_digit c || is_lower c || is_upper c
  || Ascii.eqb c "+" || Ascii.eqb c "-" || Ascii.eqb c ".".

Definition hex_value (c : ascii) : option N :=
  let n := N_of_ascii c in
  if is_digit c then Some (n - 48)%N
  else if ((97 <=? n) && (n <=? 102))%N then Some (n - 87)%N
  else if ((65 <=? n) && (n <=? 70))%N then Some (n - 55)%N
  else None.

Fixpoint string_of_chars (l : list ascii) : string :=
  match l with
  | [] => EmptyString
  | c :: r => String c (string_of_chars r)
  end.

(** UTF-8 form of a code point (a lone surrogate gets its three bytes). *)
Definition utf8_of_code (n : N) : list ascii :=
  if (n <? 128)%N then [ascii_of_N n]
  else if (n <? 2048)%N then
    [ascii_of_N (192 + n / 64); ascii_of_N (128 + n mod 64)]
  else if (n <? 65536)%N then
    [ascii_of_N (224 + n / 4096); ascii_of_N (128 + (n / 64) mod 64);
     ascii_of_N (128 + n mod 64)]
  else
    [ascii_of_N (240 + n / 262144); ascii_of_N (128 + (n / 4096) mod 64);
     ascii_of_N (128 + (n / 64) mod 64); ascii_of_N (128 + n mod 64)].

Definition is_high (n : N) : bool := ((55296 <=? n) && (n <=? 56319))%N.
Definition is_low (n : N) : bool := ((56320 <=? n) && (n <=? 57343))%N.

(** The characters of a string literal; a high surrogate escape directly
    followed by a low one makes one code point. *)
Fixpoint chars_of_items (l : list sitem) : list ascii :=
  match l with
  | [] => []
  | Raw c :: r => c :: chars_of_items r
  | U16 hi :: r =>
      match r with
      | U16 lo :: r' =>
          if is_high hi && is_low lo
          then utf8_of_code (65536 + ((hi - 55296) * 1024 + (lo - 56320))) ++ chars_of_items r'
          else utf8_of_code hi ++ chars_of_items r
      | _ => utf8_of_code hi ++ chars_of_items r
      end
  end.

Definition string_of_items (acc : list sitem) : string :=
  string_of_chars (chars_of_items (rev acc)).

Definition hex4 (ds : list N) : N :=
  fold_left (fun v d => (16 * v + d)%N) ds 0%N.

(** The scanner reads one character and gives the tokens that end with it,
    and the mode for the next character, or none when the character cannot
    stand there.  Outside a literal: white space is skipped, punctuation is
    a token, a quote opens a string, a letter, digit, sign or dot opens an
    atom. *)
Definition lex_top (c : ascii) : list token * option lex_mode :=
  if is_ws c then ([], Some LTop)
  else if Ascii.eqb c "{" then ([TLBrace], Some LTop)
  else if Ascii.eqb c "}" then ([TRBrace], Some LTop)
  else if Ascii.eqb c "[" then ([TLBracket], Some LTop)
  else if Ascii.eqb c "]" then ([TRBracket], Some LTop)
  else if Ascii.eqb c ":" then ([TColon], Some LTop)
  else if Ascii.eqb c "," then ([TComma], Some LTop)
  else if Ascii.eqb c dquote then ([], Some (LStr []))
  else if is_atom_char c then ([], Some (LAtom [c]))
  else ([], None).

Definition lex_step (m : lex_mode) (c : ascii) : list token * option lex_mode :=
  match m with
  | LTop => lex_top c
  | LAtom acc =>
      if is_atom_char c then ([], Some (LAtom (c :: acc)))
      else let '(toks, m') := lex_top c in
           (TAtom (string_of_chars (rev acc)) :: toks, m')
  | LStr acc =>
      if Ascii.eqb c dquote then ([TString (string_of_items acc)], Some LTop)
      else if Ascii.eqb c "\" then ([], Some (LEsc acc))
      else if (nat_of_ascii c <? 32)%nat then ([], None)
      else ([], Some (LStr (Raw c :: acc)))
  | LEsc acc =>
      if Ascii.eqb c dquote || Ascii.eqb c "\" || Ascii.eqb c "/"
      then ([], Some (LStr (Raw c :: acc)))
      else if Ascii.eqb c "b" then ([], Some (LStr (Raw "008" :: acc)))
      else if Ascii.eqb c "f" then ([], Some (LStr (Raw "012" :: acc)))
      else if Ascii.eqb c "n" then ([], Some (LStr (Raw "010" :: acc)))
      else if Ascii.eqb c "r" then ([], Some (LStr (Raw "013" :: acc)))
      else if Ascii.eqb c "t" then ([], Some (LStr (Raw "009" :: acc)))
      else if Ascii.eqb c "u" then ([], Some (LHex acc []))
      else ([], None)
  | LHex acc ds =>
      match hex_value c with
      | None => ([], None)
      | Some d =>
          if (List.length ds =? 3)%nat
          then ([], Some (LStr (U16 (hex4 (ds ++ [d])) :: acc)))
          else ([], Some (LHex acc (ds ++ [d])))
      end
  end.

(** The tokens that the end of the text completes: none outside a literal,
    the atom that was being read; a string left open cannot end there. *)
Definition lex_end (m : lex_mode) : option (list token) :=
  match m with
  | LTop => Some []
  | LAtom acc => Some [TAtom (string_of_chars (rev acc))]
  | _ => None
  end.

(** Numbers: an optional minus sign, then 0 or a run of digits that does
    not start with 0, then an optional fraction (a dot and digits) and an
    optional exponent (e or E, an optional sign, digits); an [int] without
    fraction and exponent, a [float] otherwise. *)
Fixpoint span_digits (s : string) : string * string :=
  match s with
  | String c r =>
      if is_digit c then let '(d, rest) := span_digits r in (String c d, rest)
      else (EmptyString, s)
  | EmptyString => (EmptyString, EmptyString)
  end.

Fixpoint digits_value (acc : Z) (s : string) : Z :=
  match s with
  | EmptyString => acc
  | String c r => digits_value (10 * acc + Z.of_nat (nat_of_ascii c - 48)) r
  end.

Definition exponent_ok (s : string) : bool :=
  match s with
  | EmptyString => true
  | String c r =>
      if Ascii.eqb c "e" || Ascii.eqb c "E" then
        let r' := match r with
                  | String sg t => if Ascii.eqb sg "+" || Ascii.eqb sg "-" then t else r
                  | EmptyString => r
                  end in
        let '(ds, rest) := span_digits r' in
        negb (String.eqb ds EmptyString) && String.eqb rest EmptyString
      else false
  end.

Definition number_value (a : string) : option json :=
  let '(neg, body) := match a with
                      | String "-" r => (true, r)
                      | _ => (false, a)
                      end in
  let '(ds, rest) := span_digits body in
  match ds with
  | EmptyString => None
  | String d0 more =>
      if Ascii.eqb d0 "0" && negb (String.eqb more EmptyString) then None
      else match rest with
      | EmptyString =>
          Some (JInt (if neg then Z.opp (digits_value 0 ds) else digits_value 0 ds))
      | String "." fr =>
          let '(fs, rest') := span_digits fr in
          if negb (String.eqb fs EmptyString) && exponent_ok rest' then Some (JFloat a) else None
      | _ => if exponent_ok rest then Some (JFloat a) else None
      end
  end.

Definition atom_value (a : string) : option json :=
  if String.eqb a "null" then Some JNull
  else if String.eqb a "true" then Some (JBool true)
  else if String.eqb a "false" then Some (JBool false)
  else if String.eqb a "NaN" || String.eqb a "Infinity" || String.eqb a "-Infinity"
  then Some (JFloat a)
  else number_value a.

(** The decoder reads a number as far as it goes at the front of an atom
    and converts it before it looks at what follows.  [int_digits a] is the
    number of digits of that number when it is an [int]: there are digits
    after the optional minus sign, and neither a fraction (a dot and a
    digit) nor an exponent (e or E, an optional sign, a digit) follows
    them. *)
Definition starts_with_digit (s : string) : bool :=
  match s with
  | String c _ => is_digit c
  | EmptyString => false
  end.

Definition fraction_follows (s : string) : bool :=
  match s with
  | String "." r => starts_with_digit r
  | _ => false
  end.

Definition exponent_follows (s : string) : bool :=
  match s with
  | String c r =>
      (Ascii.eqb c "e" || Ascii.eqb c "E")
      && (starts_with_digit r
          || match r with
             | String sg t => (Ascii.eqb sg "+" || Ascii.eqb sg "-") && starts_with_digit t
             | EmptyString => false
             end)
  | EmptyString => false
  end.

Definition int_digits (a : string) : option nat :=
  let body := match a with
              | String "-" r => r
              | _ => a
              end in
  match body with
  | String d0 more =>
      if is_digit d0 then
        let '(ds, rest) := if Ascii.eqb d0 "0" then (EmptyString, more)
                           else span_digits more in
        if fraction_follows rest || exponent_follows rest then None
        else Some (S (String.length ds))
      else None
  | EmptyString => None
  end.

(** The constants whose value the decoder looks up by a call of
    [parse_constant], and the atoms that begin with a value: a constant, a
    literal or a number.  What follows the value in the atom is an error,
    but the value is read first. *)
Definition constant_prefix (a : string) : bool :=
  String.prefix "NaN" a || String.prefix "Infinity" a || String.prefix "-Infinity" a.

Definition value_prefix (a : string) : bool :=
  constant_prefix a
  || String.prefix "null" a || String.prefix "true" a || String.prefix "false" a
  || starts_with_digit (match a with
                        | String "-" r => r
                        | _ => a
                        end).

(** The parser: a stack of the lists and objects that are open, and what
    may come next. *)
Inductive frame :=
| FList (items : list json)
| FDict (d : dict json)
| FPair (d : dict json) (key : string).

Inductive expect :=
| XValue | XValueOrEnd | XKeyOrEnd | XKey | XColon | XSep
| XDone (v : json).

Definition close_value (v : json) (stack : list frame) : option (expect * list frame) :=
  match stack with
  | [] => Some (XDone v, [])
  | FList items :: st => Some (XSep, FList (v :: items) :: st)
  | FPair d k :: st => Some (XSep, FDict (dict_set k v d) :: st)
  | FDict _ :: _ => None
  end.

Definition parse_step (x : expect) (stack : list frame) (t : token)
  : option (expect * list frame) :=
  let value :=
    match t with
    | TLBracket => Some (XValueOrEnd, FList [] :: stack)
    | TLBrace => Some (XKeyOrEnd, FDict [] :: stack)
    | TString s => close_value (JStr s) stack
    | TAtom a => match atom_value a with
                 | Some v => close_value v stack
                 | None => None
                 end
    | _ => None
    end in
  let key :=
    match t, stack with
    | TString k, FDict d :: st => Some (XColon, FPair d k :: st)
    | _, _ => None
    end in
  let end_list :=
    match stack with
    | FList items :: st => close_value (JList (rev items)) st
    | _ => None
    end in
  let end_dict :=
    match stack with
    | FDict d :: st => close_value (JDict d) st
    | _ => None
    end in
  match x with
  | XValue => value
  | XValueOrEnd => match t with TRBracket => end_list | _ => value end
  | XKeyOrEnd => match t with TRBrace => end_dict | _ => key end
  | XKey => key
  | XColon => match t with TColon => Some (XValue, stack) | _ => None end
  | XSep =>
      match t, stack with
      | TComma, FList _ :: _ => Some (XValue, stack)
      | TComma, FDict _ :: _ => Some (XKey, stack)
      | TRBracket, _ => end_list
      | TRBrace, _ => end_dict
      | _, _ => None
      end
  | XDone _ => None
  end.

(** Where the decoder is when it finds the text wrong.  The scanner, which
    runs the nested lists and objects, raises JSONDecodeError itself, with
    [depth] of them open; when no value begins where one has to, it gives up
    and [raw_decode], which called it, raises the error; text after the
    value is found by [decode], which called [raw_decode]. *)
Inductive fault :=
| ExpectingValue
| ExtraData
| InScanner (depth : nat).

(** What is wrong: no value begins here; a string literal is ill-formed or
    does not end; or an atom goes on after the value it begins with. *)
Inductive wrong := NoValue | InString | AfterValue.

Definition after_value (stack : list frame) : fault :=
  match stack with
  | [] => ExtraData
  | _ :: _ => InScanner (List.length stack)
  end.

Definition fault_at (x : expect) (stack : list frame) (what : wrong) : fault :=
  match x with
  | XValue | XValueOrEnd =>
      match what with
      | NoValue => ExpectingValue
      | InString => InScanner (List.length stack)
      | AfterValue => after_value stack
      end
  | XDone _ => ExtraData
  | XKeyOrEnd | XKey | XColon | XSep => InScanner (List.length stack)
  end.

Definition wrong_token (t : token) : wrong :=
  match t with
  | TAtom a => if value_prefix a then AfterValue else NoValue
  | _ => NoValue
  end.

Definition wrong_char (m : lex_mode) : wrong :=
  match m with
  | LTop | LAtom _ => NoValue
  | LStr _ | LEsc _ | LHex _ _ => InString
  end.

(** JSON text is written below with apostrophes in place of the double
    quotes: [quoted] puts the double quotes back. *)
Fixpoint quoted (s : string) : string :=
  match s with
  | EmptyString => EmptyString
  | String c r => String (if Ascii.eqb c "'" then dquote else c) (quoted r)
  end.

(* ================================================================= *)
(** ** The objects of [requests], the world and the exceptions *)

Record HTTPAdapter := {
  adapter_id : nat;
  pool_connections : Z;
  pool_maxsize : Z;
  max_retries : Z;
  pool_block : bool
}.

Record Session := {
  session_id : nat;
  adapters : dict HTTPAdapter
}.

Record Response := {
  status_code : Z;
  content : bytes;
  resp_headers : dict string
}.

(** [Response.ok]: [raise_for_status] raises for 400 <= status < 600. *)
Definition ok (r : Response) : bool :=
  negb ((400 <=? status_code r)%Z && (status_code r <? 600)%Z).

Inductive verb := GET | POST | DELETE | PUT.

(** One call of [session.get], [.post], [.delete] or [.put] with its
    keyword arguments ([params=] and [data=] are absent when not given). *)
Record WireRequest := {
  via : Session;
  method_of : verb;
  target : string;
  query : option params_t;
  data : option params_t;
  req_headers : option headers_t;
  req_timeout : Z
}.

Inductive transport_failure :=
| ConnectionError
| ConnectTimeout
| ReadTimeout
| OtherRequestException (msg : string).

(** Modelled from the spec: [ApiError] of [mangadex/errors.py], which is not
    among the sources: an error value that carries the argument it was
    constructed from, the full response or a value of the payload. *)
Inductive api_error_arg :=
| OfResponse (r : Response)
| OfValue (v : json).

Inductive exn :=
| ValueError (msg : string)
| UnicodeDecodeError
| UnicodeEncodeError
| RecursionError
| JSONDecodeError
| RequestException (e : transport_failure)
| ApiError (arg : api_error_arg).

(** What a session method does when it is called: it returns a response,
    it raises a RequestException, or it raises something else.  requests
    raises a ValueError for a timeout that is not positive, and the
    ValueError or UnicodeEncodeError of [urlencode] while it encodes the
    mapping of a POST or a PUT; none of these is a RequestException.  The
    exception is kept as it is raised. *)
Inductive reply :=
| Responded (r : Response)
| Failed (e : transport_failure)
| Raised (e : exn).

(** [EvTransport q] records that a session method was called with [q],
    whatever came of the call. *)
Inductive event :=
| EvTransport (q : WireRequest)
| EvLogException (msg : string)
| EvJsonLoads (text : string).

(** What the transport does with a request, for one call of
    [request_url]. *)
Definition network := WireRequest -> reply.

Record World := {
  cls_session : option Session;
  next_object : nat;
  trace : list event
}.

Definition fresh_process : World :=
  {| cls_session := None; next_object := 0; trace := [] |}.

Inductive result (A : Type) :=
| Return (a : A)
| Raise (e : exn).
Arguments Return {A} a.
Arguments Raise {A} e.

Definition M (A : Type) := World -> result A * World.

Definition ret {A} (a : A) : M A := fun w => (Return a, w).

Definition raise {A} (e : exn) : M A := fun w => (Raise e, w).

Definition bind {A B} (m : M A) (k : A -> M B) : M B :=
  fun w =>
    match m w with
    | (Return a, w') => k a w'
    | (Raise e, w') => (Raise e, w')
    end.

Notation "x <- m ;; k" := (bind m (fun x => k))
  (at level 61, m at next level, right associativity).
Notation "m ;;; k" := (bind m (fun _ => k))
  (at level 61, right associativity).

Definition emit (e : event) : M unit :=
  fun w => (Return tt, {| cls_session := cls_session w;
                          next_object := next_object w;
                          trace := trace w ++ [e] |}).

(** [try: body except requests.RequestException as e: handler e] *)
Definition try_request {A} (body : M A) (handler : transport_failure -> M A) : M A :=
  fun w =>
    match body w with
    | (Raise (RequestException e), w') => handler e w'
    | r => r
    end.

(** [try: body except json.JSONDecodeError: handler] *)
Definition try_json {A} (body : M A) (handler : M A) : M A :=
  fun w =>
    match body w with
    | (Raise JSONDecodeError, w') => handler w'
    | r => r
    end.

Definition of_option {A} (e : exn) (o : option A) : M A :=
  match o with
  | Some a => ret a
  | None => raise e
  end.

(** [Session.mount]: the prefix is set, then every shorter prefix moves
    behind it. *)
Definition mount (prefix : string) (adapter : HTTPAdapter) (s : Session) : Session :=
  let d := dict_set prefix adapter (adapters s) in
  let shorter (kv : string * HTTPAdapter) :=
    (String.length (fst kv) <? String.length prefix)%nat in
  {| session_id := session_id s;
     adapters := filter (fun kv => negb (shorter kv)) d ++ filter shorter d |}.

Definition default_adapter (id : nat) : HTTPAdapter :=
  {| adapter_id := id; pool_connections := 10; pool_maxsize := 10;
     max_retries := 0; pool_block := false |}.

(** [requests.Session()] as object number [id], with its two default
    adapters. *)
Definition new_session (id : nat) : Session :=
  mount "http://" (default_adapter (id + 2))
    (mount "https://" (default_adapter (id + 1))
       {| session_id := id; adapters := [] |}).

(** [URLRequest._get_session] *)
Definition _get_session : M Session :=
  fun w =>
    match cls_session w with
    | Some s => (Return s, w)
    | None =>
        let n := next_object w in
        let s0 := new_session n in
        let adapter := {| adapter_id := n + 3;
                          pool_connections := 100;
                          pool_maxsize := 100;
                          max_retries := 3;
                          pool_block := true |} in
        let s := mount "https://" adapter (mount "http://" adapter s0) in
        (Return s, {| cls_session := Some s;
                      next_object := n + 4;
                      trace := trace w |})
    end.

(** The call of a session method: it is recorded, and it returns the
    response or raises what the method raised. *)
Definition outcome (r : reply) : result Response :=
  match r with
  | Responded resp => Return resp
  | Failed e => Raise (RequestException e)
  | Raised e => Raise e
  end.

Definition send (net : network) (q : WireRequest) : M Response :=
  fun w =>
    match emit (EvTransport q) w with
    | (_, w') => (outcome (net q), w')
    end.

(** [data.get("result") == "error"] *)
Definition is_str (v : option json) (s : string) : bool :=
  match v with
  | Some (JStr t) => String.eqb t s
  | _ => false
  end.

(** [URLRequest._check_api_error] *)
Definition _check_api_error (data : json) : M unit :=
  let data := match data with
              | JList (first :: _) => first
              | _ => data
              end in
  match data with
  | JDict d =>
      if is_str (dict_get "result" d) "error" || dict_mem "error" d
      then raise (ApiError (OfValue (match dict_get "errors" d with
                                     | Some v => v
                                     | None => JStr "Erro desconhecido"
                                     end)))
      else ret tt
  | _ => ret tt
  end.

Inductive str_or_bytes :=
| AsStr (s : string)
| AsBytes (b : bytes).

Definition as_text (c : str_or_bytes) : M string :=
  match c with
  | AsStr s => ret s
  | AsBytes b => of_option UnicodeDecodeError (decode_utf8 b)
  end.

Definition log_exception (msg : string) : M unit := emit (EvLogException msg).

(** The default [timeout=10]. *)
Definition default_timeout : Z := 10.

(* ================================================================= *)
(** ** The limits of the interpreter *)

(** Two limits of the Python interpreter decide what a call does with a
    deep body or a long number.
    - [decoder_depth]: the levels of the stack that are left where the
      scanner of [json.loads] starts: the recursion limit less the depth of
      the stack there.  Each list or object that is open takes one level,
      and the decoder raises RecursionError at the bracket that goes beyond
      the limit.  The scanner also needs levels to look up a constant and
      to raise JSONDecodeError, see [constant_levels] and [error_levels].
      The depth is [minimum_depth] and the [stack_room] beyond it.
    - [int_max_str_digits]: [sys.get_int_max_str_digits()], the most digits
      an [int] may have when it is read from decimal text or written as
      decimal text.  0 stands for no limit; the interpreter accepts no
      other value below 640. *)
Record Limits := {
  stack_room : N;
  int_max_str_digits : N
}.

(** The scanner starts five levels above [request_url]: [__parse_data],
    [loads], [decode], [raw_decode] and the call of the scanner.  When the
    decoder runs, the session method has been called from [request_url] and
    has returned, and requests goes at least nine calls deep to send a
    request ([get], [request], [send], the adapter's [send], [urlopen] and
    the calls of the connection below it).  So four levels at least are
    left where the scanner starts. *)
Definition minimum_depth : N := 4.

Definition decoder_depth (l : Limits) : N := minimum_depth + stack_room l.

(** The defaults: 4300 digits, and some 990 levels under the recursion
    limit of 1000. *)
Definition default_limits : Limits :=
  {| stack_room := 986; int_max_str_digits := 4300 |}.

(** A call made from deep in the stack, in an interpreter set to the
    smallest digit limit. *)
Definition tight_limits : Limits :=
  {| stack_room := 2; int_max_str_digits := 640 |}.

(** The same digit limit with no more than the [minimum_depth]. *)
Definition least_room (l : Limits) : Limits :=
  {| stack_room := 0; int_max_str_digits := int_max_str_digits l |}.

(** The levels of the stack the decoder takes beyond those of the open
    lists and objects (CPython 3.11): one for the call that looks up NaN,
    Infinity or -Infinity; three to raise JSONDecodeError: the call of the
    class, the frame of its [__init__], and the call of [str.count] in it.
    [raw_decode] runs one level below the scanner and [decode] two. *)
Definition constant_levels : N := 1.
Definition error_levels : N := 3.

Definition levels_of_fault (f : fault) : N :=
  match f with
  | InScanner depth => N.of_nat depth + error_levels
  | ExpectingValue => error_levels - 1
  | ExtraData => error_levels - 2
  end.

Definition decimal (n : N) : string := NilZero.string_of_uint (N.to_uint n).

(** The two messages of the digit limit: of [int(text)], which tells the
    number of digits, and of [str(n)]. *)
Definition int_of_str_message (limit : N) (digits : nat) : string :=
  "Exceeds the limit (" ++ decimal limit
  ++ " digits) for integer string conversion: value has "
  ++ decimal (N.of_nat digits)
  ++ " digits; use sys.set_int_max_str_digits() to increase the limit".

Definition str_of_int_message (limit : N) : string :=
  "Exceeds the limit (" ++ decimal limit
  ++ " digits) for integer string conversion"
  ++ "; use sys.set_int_max_str_digits() to increase the limit".

(** [n] as a run of the digit 7, for numbers too long to write out. *)
Definition sevens (n : nat) : string := string_of_chars (repeat "7"%char n).

Definition byte_order_mark : string :=
  String "239" (String "187" (String "191" EmptyString)).

(** Shows that the transport answered a concrete call. *)
Ltac answered :=
  eexists; split; [vm_compute; left; reflexivity | reflexivity].

(* ================================================================= *)
(** ** [json.loads] *)

Section Decoder.

Variable limits : Limits.

Definition too_many_digits (n : nat) : bool :=
  (0 <? int_max_str_digits limits)%N && (int_max_str_digits limits <? N.of_nat n)%N.

(** Whether the stack has [levels] more levels with [depth] lists and
    objects open. *)
Definition fits (depth : nat) (levels : N) : bool :=
  (N.of_nat depth + levels <=? decoder_depth limits)%N.

(** What stops the decoder before it takes a token, where a value may
    begin: an opening bracket or a constant with no level left for it, or an
    [int] with too many digits. *)
Definition token_limit (x : expect) (stack : list frame) (t : token) : option exn :=
  match x with
  | XValue | XValueOrEnd =>
      match t with
      | TLBracket | TLBrace =>
          if fits (List.length stack) 1 then None else Some RecursionError
      | TAtom a =>
          if constant_prefix a then
            if fits (List.length stack) constant_levels then None
            else Some RecursionError
          else
            match int_digits a with
            | Some n =>
                if too_many_digits n
                then Some (ValueError (int_of_str_message (int_max_str_digits limits) n))
                else None
            | None => None
            end
      | _ => None
      end
  | _ => None
  end.

(** The text is wrong: JSONDecodeError, when the stack has the levels to
    raise it. *)
Definition decode_error (f : fault) : exn :=
  if (levels_of_fault f <=? decoder_depth limits)%N then JSONDecodeError
  else RecursionError.

Definition decode_step (x : expect) (stack : list frame) (t : token)
  : result (expect * list frame) :=
  match token_limit x stack t with
  | Some e => Raise e
  | None =>
      match parse_step x stack t with
      | Some st => Return st
      | None => Raise (decode_error (fault_at x stack (wrong_token t)))
      end
  end.

Fixpoint decode_steps (x : expect) (stack : list frame) (toks : list token)
  : result (expect * list frame) :=
  match toks with
  | [] => Return (x, stack)
  | t :: r =>
      match decode_step x stack t with
      | Return (x', stack') => decode_steps x' stack' r
      | Raise e => Raise e
      end
  end.

(** The decoder goes through the text once, from left to right, and stops
    at the first thing that is wrong. *)
Fixpoint decode_from (m : lex_mode) (x : expect) (stack : list frame) (s : string)
  : result json :=
  match s with
  | EmptyString =>
      match lex_end m with
      | None => Raise (decode_error (fault_at x stack InString))
      | Some toks =>
          match decode_steps x stack toks with
          | Return (XDone v, _) => Return v
          | Return (x', stack') => Raise (decode_error (fault_at x' stack' NoValue))
          | Raise e => Raise e
          end
      end
  | String c r =>
      let '(toks, m') := lex_step m c in
      match decode_steps x stack toks with
      | Raise e => Raise e
      | Return (x', stack') =>
          match m' with
          | None => Raise (decode_error (fault_at x' stack' (wrong_char m)))
          | Some m'' => decode_from m'' x' stack' r
          end
      end
  end.

(** [json.loads(text)]: the value, or JSONDecodeError, RecursionError or
    the ValueError of the digit limit.  Text that begins with the byte
    order mark is refused by [loads] itself, before the decoder runs. *)
Definition json_decode (text : string) : result json :=
  if String.prefix byte_order_mark text then Raise JSONDecodeError
  else decode_from LTop XValue [] text.

End Decoder.

(* ================================================================= *)
(** ** The methods of [URLRequest] that depend on the limits *)

Section Interpreter.

Variable limits : Limits.

Definition loads (text : string) : M json :=
  emit (EvJsonLoads text) ;;;
  fun w => (json_decode limits text, w).

(** [URLRequest.__parse_data] *)
Definition __parse_data (content : str_or_bytes) : M json :=
  try_json
    (decoded <- as_text content ;;
     data <- loads decoded ;;
     _check_api_error data ;;;
     ret data)
    (text <- as_text content ;;
     ret (JStr text)).

(** *** What [urlencode] raises *)

(** [s.encode("utf-8")] raises UnicodeEncodeError for text that holds a
    lone surrogate. *)
Definition str_encode_error (s : string) : option exn :=
  if utf8_valid (encode_utf8 s) then None else Some UnicodeEncodeError.

(** Quoting a value: bytes are taken as they are, [str(None)] and
    [str(bool)] are ASCII, [str(n)] raises ValueError for an integer with
    too many digits (the sign is not counted), text has to encode. *)
Definition quote_value_error (v : scalar) : option exn :=
  match v with
  | SStr s => str_encode_error s
  | SInt n =>
      if too_many_digits limits (String.length (str_of_int (Z.abs n)))
      then Some (ValueError (str_of_int_message (int_max_str_digits limits)))
      else None
  | SNone | SBytes _ | SBool _ => None
  end.

(** [urlencode] quotes pair after pair, the key before the value; the first
    error ends it. *)
Definition encode_pair_error (kv : string * scalar) : option exn :=
  match str_encode_error (fst kv) with
  | Some e => Some e
  | None => quote_value_error (snd kv)
  end.

Fixpoint urlencode_error (query : list (string * scalar)) : option exn :=
  match query with
  | [] => None
  | kv :: r =>
      match encode_pair_error kv with
      | Some e => Some e
      | None => urlencode_error r
      end
  end.

(** What [__build_url] raises: nothing for the empty mapping, which is not
    encoded, and what [urlencode] raises on the pairs of the loop
    otherwise. *)
Definition build_url_error (params : params_t) : option exn :=
  match params with
  | [] => None
  | _ :: _ => urlencode_error (params_tuple params)
  end.

(** [URLRequest.__build_url] as it runs. *)
Definition build_url (url : string) (params : params_t) : M string :=
  match build_url_error params with
  | Some e => raise e
  | None => ret (__build_url url params)
  end.

(** *** [URLRequest.request_url] *)

Definition request_url (net : network) (url method : string) (timeout : Z)
    (params : option params_t) (headers : option headers_t) : M json :=
  session <- _get_session ;;
  let params := match params with
                | None => []
                | Some p => p
                end in
  params <- of_option UnicodeDecodeError (decode_params params) ;;
  let method := upper method in
  response <-
    try_request
      (if String.eqb method "GET" then
         full_url <- build_url url params ;;
         send net {| via := session; method_of := GET; target := full_url;
                     query := None; data := None;
                     req_headers := headers; req_timeout := timeout |}
       else if String.eqb method "POST" then
         send net {| via := session; method_of := POST; target := url;
                     query := None; data := Some params;
                     req_headers := headers; req_timeout := timeout |}
       else if String.eqb method "DELETE" then
         send net {| via := session; method_of := DELETE; target := url;
                     query := None; data := None;
                     req_headers := headers; req_timeout := timeout |}
       else if String.eqb method "PUT" then
         send net {| via := session; method_of := PUT; target := url;
                     query := Some params; data := None;
                     req_headers := headers; req_timeout := timeout |}
       else raise (ValueError ("Método HTTP inválido: " ++ method)))
      (fun e =>
         log_exception ("[URLRequest] Falha na requisição " ++ method ++ " " ++ url) ;;;
         raise (RequestException e)) ;;
  if negb (ok response) then raise (ApiError (OfResponse response))
  else __parse_data (AsBytes (content response)).

(* ================================================================= *)
(** ** Vocabulary of the properties *)

(** What a call added to the trace, from the world before and after. *)
Definition events_of_call (w w' : World) : list event :=
  skipn (List.length (trace w)) (trace w').

Definition transports (l : list event) : list WireRequest :=
  flat_map (fun e => match e with EvTransport q => [q] | _ => [] end) l.

Definition decoder_calls (l : list event) : list string :=
  flat_map (fun e => match e with EvJsonLoads t => [t] | _ => [] end) l.

(** The call that took [w] to [w'] sent a request which the transport
    answered with [resp]. *)
Definition answered_with (net : network) (w w' : World) (resp : Response) : Prop :=
  exists q, In q (transports (events_of_call w w')) /\ net q = Responded resp.

Definition successful (r : Response) : Prop := (200 <= status_code r < 300)%Z.

(** The body as JSON: decoded as UTF-8, then parsed by [json.loads], when
    both give a result. *)
Definition body_json (body : bytes) : option json :=
  match decode_utf8 body with
  | Some text =>
      match json_decode limits text with
      | Return v => Some v
      | Raise _ => None
      end
  | None => None
  end.

Definition supported_method (m : string) : bool :=
  eq_nocase m "GET" || eq_nocase m "POST" || eq_nocase m "PUT" || eq_nocase m "DELETE".

(** The error of line 65, a ValueError with the invalid-method message. *)
Definition InvalidMethod (e : exn) : Prop :=
  exists m, e = ValueError ("Método HTTP inválido: " ++ m).

(** A network that answers every request with the same response. *)
Definition always (r : Response) : network := fun _ => Responded r.

Definition response (status : Z) (body : string) : Response :=
  {| status_code := status; content := encode_utf8 body; resp_headers := [] |}.

(** Reading a query string back: the pieces between [&], each cut at its
    first [=]; and [unquote_plus], the inverse of the quoting. *)
Fixpoint has_char (c : ascii) (s : string) : bool :=
  match s with
  | EmptyString => false
  | String a r => Ascii.eqb a c || has_char c r
  end.

Fixpoint split_on (c : ascii) (s : string) : list string :=
  match s with
  | EmptyString => [EmptyString]
  | String a r =>
      if Ascii.eqb a c then EmptyString :: split_on c r
      else match split_on c r with
           | h :: t => String a h :: t
           | [] => [String a EmptyString]
           end
  end.

Fixpoint partition_eq (s : string) : string * string :=
  match s with
  | EmptyString => (EmptyString, EmptyString)
  | String a r =>
      if Ascii.eqb a "=" then (EmptyString, r)
      else let '(k, v) := partition_eq r in (String a k, v)
  end.

Definition query_pairs (qs : string) : list (string * string) :=
  match qs with
  | EmptyString => []
  | _ => map partition_eq (split_on "&" qs)
  end.

Definition byte_of_hex (h l : ascii) : byte :=
  let v c := match hex_value c with Some n => n | None => 0%N end in
  match Byte.of_N (16 * v h + v l) with
  | Some b => b
  | None => x00
  end.

Fixpoint unquote_plus (s : string) : bytes :=
  match s with
  | EmptyString => []
  | String c r =>
      if Ascii.eqb c "+" then x20 :: unquote_plus r
      else if Ascii.eqb c "%" then
        match r with
        | String h (String l r') => byte_of_hex h l :: unquote_plus r'
        | _ => byte_of_ascii c :: unquote_plus r
        end
      else byte_of_ascii c :: unquote_plus r
  end.

(** The pair of quoted strings [urlencode] writes for one pair. *)
Definition quoted_pair (kv : string * scalar) : string * string :=
  (quote_plus (fst kv), quote_value (snd kv)).

(** The pairs one entry of the mapping contributes. *)
Definition expand (kv : string * pvalue) : list (string * scalar) :=
  encode_step [] kv.

Definition with_key {V} (k : string) (l : list (string * V)) : list (string * V) :=
  filter (fun kv => String.eqb (fst kv) k) l.

(** A list or a tuple with the given elements. *)
Definition sequence_of (v : pvalue) (items : list scalar) : Prop :=
  v = PyList items \/ v = PyTuple items.

(** [v'] is [v] with some of its byte strings replaced by their decoded
    text, at the top or inside a list or tuple; [p'] is [p] with that done
    to some of its values. *)
Inductive scalar_as_text : scalar -> scalar -> Prop :=
| sat_same (s : scalar) : scalar_as_text s s
| sat_decoded (b : bytes) (t : string) :
    decode_utf8 b = Some t -> scalar_as_text (SBytes b) (SStr t).

Inductive value_as_text : pvalue -> pvalue -> Prop :=
| vat_scalar (a b : scalar) :
    scalar_as_text a b -> value_as_text (Scalar a) (Scalar b)
| vat_list (l l' : list scalar) :
    Forall2 scalar_as_text l l' -> value_as_text (PyList l) (PyList l')
| vat_tuple (l l' : list scalar) :
    Forall2 scalar_as_text l l' -> value_as_text (PyTuple l) (PyTuple l').

Definition params_as_text (p p' : params_t) : Prop :=
  Forall2 (fun a b => fst a = fst b /\ value_as_text (snd a) (snd b)) p p'.

(** Every [bytes] value at the top of the mapping is well-formed UTF-8. *)
Definition bytes_values_valid (params : params_t) : bool :=
  forallb (fun kv => match snd kv with
                     | Scalar (SBytes b) => utf8_valid b
                     | _ => true
                     end) params.

(** Calls of the two class methods, and a process making a series of
    them. *)
Inductive call :=
| GetSession
| Request (net : network) (url method : string) (timeout : Z)
    (params : option params_t) (headers : option headers_t).

Definition perform (w : World) (c : call) : World :=
  match c with
  | GetSession => snd (_get_session w)
  | Request net url method timeout params headers =>
      snd (request_url net url method timeout params headers w)
  end.

Definition run (calls : list call) (w : World) : World :=
  fold_left perform calls w.

(** What [request_url] does once the transport has answered. *)
Definition interpret (r : Response) : M json :=
  if negb (ok r) then raise (ApiError (OfResponse r))
  else __parse_data (AsBytes (content r)).

(** What [__parse_data] makes of a text. *)
Definition text_result (text : string) : result json :=
  match json_decode limits text with
  | Return v =>
      match fst (_check_api_error v fresh_process) with
      | Return _ => Return v
      | Raise e => Raise e
      end
  | Raise JSONDecodeError => Return (JStr text)
  | Raise e => Raise e
  end.

(** The request a call hands to the session, or what the call raises
    before it has one. *)
Definition planned (session : Session) (url method : string) (timeout : Z)
    (params : params_t) (headers : option headers_t) : result WireRequest :=
  let mk v t q d :=
    {| via := session; method_of := v; target := t; query := q; data := d;
       req_headers := headers; req_timeout := timeout |} in
  if String.eqb method "GET" then
    match build_url_error params with
    | Some e => Raise e
    | None => Return (mk GET (__build_url url params) None None)
    end
  else if String.eqb method "POST" then Return (mk POST url None (Some params))
  else if String.eqb method "DELETE" then Return (mk DELETE url None None)
  else if String.eqb method "PUT" then Return (mk PUT url (Some params) None)
  else Raise (ValueError ("Método HTTP inválido: " ++ method)).

Definition log_event (w : World) (e : event) : World :=
  {| cls_session := cls_session w; next_object := next_object w;
     trace := trace w ++ [e] |}.

(** What [request_url] makes of the outcome of the session method: a
    response is interpreted, a RequestException is logged and raised again,
    anything else passes. *)
Definition after_send (method url : string) (o : result Response) : M json :=
  match o with
  | Return r => interpret r
  | Raise (RequestException e) =>
      fun w =>
        (Raise (RequestException e),
         log_event w (EvLogException
                        ("[URLRequest] Falha na requisição " ++ upper method ++ " " ++ url)))
  | Raise e => raise e
  end.

(** The mapping of a call: [params=None] stands for the empty one. *)
Definition params_or_empty (params : option params_t) : params_t :=
  match params with
  | None => []
  | Some p => p
  end.

(** Lists and dicts, as opposed to numbers, strings, booleans and None. *)
Definition is_container (v : json) : bool :=
  match v with
  | JList _ | JDict _ => true
  | _ => false
  end.

(** Inputs used in the examples below. *)
Definition api_url : string := "https://api.mangadex.org/manga".

Definition error_body : string := quoted "{'result':'error','errors':['bad id']}".

(** A 200 response whose body is the single byte FF: not UTF-8, so not
    JSON. *)
Definition garbled : Response :=
  {| status_code := 200; content := [xff]; resp_headers := [] |}.

Definition two_requests : list call :=
  [Request (always (response 200 "pong")) api_url "GET" 10 None None;
   GetSession;
   Request (fun _ => Failed ConnectionError) api_url "post" 10
     (Some [("title", Scalar (SStr "x"))]) None].

(** ** Vocabulary of the further properties *)

Definition logged (l : list event) : list string :=
  flat_map (fun e => match e with EvLogException m => [m] | _ => [] end) l.

(** The name of the session method that was called. *)
Definition verb_name (v : verb) : string :=
  match v with
  | GET => "GET"
  | POST => "POST"
  | DELETE => "DELETE"
  | PUT => "PUT"
  end.

(** The bytes [urlencode] quotes for a value: the bytes themselves, or the
    UTF-8 form of [str(v)]. *)
Definition value_bytes (v : scalar) : bytes :=
  match v with
  | SBytes b => b
  | SNone => encode_utf8 "None"
  | SStr s => encode_utf8 s
  | SInt n => encode_utf8 (str_of_int n)
  | SBool b => encode_utf8 (str_of_bool b)
  end.

(** The characters of an encoded query string: letters, digits, [_.-~],
    and the four marks [%], [+], [=] and [&]. *)
Definition is_query_char (c : ascii) : bool :=
  is_digit c || is_lower c || is_upper c
  || Ascii.eqb c "_" || Ascii.eqb c "." || Ascii.eqb c "-" || Ascii.eqb c "~"
  || Ascii.eqb c "%" || Ascii.eqb c "+" || Ascii.eqb c "=" || Ascii.eqb c "&".

Fixpoint all_chars (p : ascii -> bool) (s : string) : bool :=
  match s with
  | EmptyString => true
  | String c r => p c && all_chars p r
  end.

(** A value that adds no pair: None, or a list or tuple without
    elements. *)
Definition adds_nothing (v : pvalue) : bool :=
  match v with
  | Scalar SNone | PyList [] | PyTuple [] => true
  | _ => false
  end.

(** Two encoded strings put together: with [&] between them when neither
    is empty. *)
Definition join_query (a b : string) : string :=
  match a, b with
  | EmptyString, _ => b
  | _, EmptyString => a
  | _, _ => a ++ "&" ++ b
  end.

(** The value at the top of the mapping after lines 49-50: the same, or the
    text of a byte string. *)
Definition decoded_entry (a b : string * pvalue) : Prop :=
  fst a = fst b
  /\ (snd b = snd a
      \/ exists bs t, snd a = Scalar (SBytes bs)
                      /\ decode_utf8 bs = Some t
                      /\ snd b = Scalar (SStr t)).

(** What [json.loads] raises, and what [urlencode] raises. *)
Definition decoder_exn (e : exn) : Prop :=
  e = JSONDecodeError \/ e = RecursionError
  \/ exists digits,
       e = ValueError (int_of_str_message (int_max_str_digits limits) digits).

Definition urlencode_exn (e : exn) : Prop :=
  e = UnicodeEncodeError
  \/ e = ValueError (str_of_int_message (int_max_str_digits limits)).

Definition is_request_exception (e : exn) : bool :=
  match e with
  | RequestException _ => true
  | _ => false
  end.

(** How a call that got a response may end: with a value, with ApiError,
    with the UnicodeDecodeError of the body, or with what the JSON decoder
    raises at a limit of the interpreter. *)
Definition result_of_answer (r : result json) : bool :=
  match r with
  | Return _ => true
  | Raise (ApiError _) | Raise UnicodeDecodeError | Raise RecursionError => true
  | Raise (ValueError m) => String.prefix "Exceeds the limit (" m
  | Raise _ => false
  end.

(** How a call that called no session method ends: with the
    UnicodeDecodeError of a parameter, the invalid-method error, or what
    [urlencode] raises. *)
Definition error_before_sending (e : exn) : bool :=
  match e with
  | UnicodeDecodeError | UnicodeEncodeError => true
  | ValueError m =>
      String.prefix "Método HTTP inválido: " m || String.prefix "Exceeds the limit (" m
  | _ => false
  end.

(** A body of seven lists, one inside the other. *)
Definition nested_body : string := "[[[[[[[1]]]]]]]".

(** Two bodies that are no JSON: a thousand opening brackets, and 4301
    digits followed by a letter. *)
Definition deep_body : string := string_of_chars (repeat "["%char 1000).

Definition long_body : string := sevens 4301 ++ " x".

(* ================================================================= *)
(** * Properties *)

(** ** Text *)

Lemma upper_eq_nocase (t s : string) :
  upper t = t -> String.eqb (upper s) t = eq_nocase s t.
Proof. unfold eq_nocase. now intros ->. Qed.

Lemma append_assoc (a b c : string) :
  ((a ++ b) ++ c)%string = (a ++ (b ++ c))%string.
Proof. induction a as [|x a IH]; cbn; [reflexivity|]. now rewrite IH. Qed.

Lemma has_char_app (c : ascii) (s t : string) :
  has_char c (s ++ t) = has_char c s || has_char c t.
Proof. induction s as [|a s IH]; cbn; [reflexivity|]. now rewrite IH, orb_assoc. Qed.

(** ** Quoting and the query string *)

Lemma quote_byte_plain (b : byte) :
  has_char "&" (quote_byte b) = false /\ has_char "=" (quote_byte b) = false.
Proof. destruct b; split; reflexivity. Qed.

Lemma quote_from_bytes_plain (bs : bytes) :
  has_char "&" (quote_from_bytes bs) = false
  /\ has_char "=" (quote_from_bytes bs) = false.
Proof.
  induction bs as [|b r [IH1 IH2]]; cbn; [auto|].
  rewrite !has_char_app, IH1, IH2.
  destruct (quote_byte_plain b) as [-> ->]. auto.
Qed.

Lemma quote_value_plain (v : scalar) :
  has_char "&" (quote_value v) = false /\ has_char "=" (quote_value v) = false.
Proof. destruct v; apply quote_from_bytes_plain. Qed.

Lemma unquote_quote_byte (b : byte) (s : string) :
  unquote_plus (quote_byte b ++ s) = b :: unquote_plus s.
Proof. destruct b; reflexivity. Qed.

Lemma unquote_quote (bs : bytes) : unquote_plus (quote_from_bytes bs) = bs.
Proof.
  induction bs as [|b r IH]; cbn; [reflexivity|].
  now rewrite unquote_quote_byte, IH.
Qed.

Lemma quote_from_bytes_inj (a b : bytes) :
  quote_from_bytes a = quote_from_bytes b -> a = b.
Proof. intros H. rewrite <- (unquote_quote a), <- (unquote_quote b). now f_equal. Qed.

Lemma quote_plus_inj (s t : string) : quote_plus s = quote_plus t -> s = t.
Proof.
  unfold quote_plus, encode_utf8. intros H. apply quote_from_bytes_inj in H.
  rewrite <- (string_of_list_byte_of_string s), <- (string_of_list_byte_of_string t).
  now f_equal.
Qed.

(** Bytes and the text they decode to are quoted alike. *)
Lemma quote_value_decoded (b : bytes) (t : string) :
  decode_utf8 b = Some t -> quote_value (SStr t) = quote_value (SBytes b).
Proof.
  unfold decode_utf8. destruct (utf8_valid b); [|discriminate].
  intros [= <-]. cbn. unfold quote_plus, encode_utf8.
  now rewrite list_byte_of_string_of_list_byte.
Qed.

Lemma split_on_plain (c : ascii) (s : string) :
  has_char c s = false -> split_on c s = [s].
Proof.
  induction s as [|a s IH]; cbn; [reflexivity|].
  intros H. apply orb_false_elim in H as [-> H]. now rewrite IH.
Qed.

Lemma split_on_app (c : ascii) (s r : string) :
  has_char c s = false -> split_on c (s ++ String c r) = s :: split_on c r.
Proof.
  induction s as [|a s IH]; cbn.
  - intros _. now rewrite Ascii.eqb_refl.
  - intros H. apply orb_false_elim in H as [-> H]. now rewrite IH.
Qed.

Lemma partition_eq_app (k v : string) :
  has_char "=" k = false -> partition_eq (k ++ String "=" v) = (k, v).
Proof.
  induction k as [|a k IH]; cbn; [reflexivity|].
  intros H. apply orb_false_elim in H as [-> H]. now rewrite IH.
Qed.

Lemma encode_pair_plain (kv : string * scalar) :
  has_char "&" (encode_pair kv) = false.
Proof.
  unfold encode_pair. rewrite !has_char_app.
  destruct (quote_from_bytes_plain (encode_utf8 (fst kv))) as [H _].
  unfold quote_plus. rewrite H.
  destruct (quote_value_plain (snd kv)) as [-> _]. reflexivity.
Qed.

Lemma partition_encode_pair (kv : string * scalar) :
  partition_eq (encode_pair kv) = quoted_pair kv.
Proof.
  unfold encode_pair, quoted_pair. cbn [append].
  apply partition_eq_app. apply quote_from_bytes_plain.
Qed.

Lemma split_join (l : list string) :
  l <> [] ->
  Forall (fun s => has_char "&" s = false) l ->
  split_on "&" (join_amp l) = l.
Proof.
  induction l as [|s r IH]; [congruence|].
  intros _ H. inversion H as [|? ? Hs Hr]; subst.
  destruct r as [|s' r'].
  - cbn. now apply split_on_plain.
  - change (join_amp (s :: s' :: r')) with (s ++ String "&" (join_amp (s' :: r')))%string.
    rewrite split_on_app by assumption. f_equal. apply IH; [discriminate|assumption].
Qed.

Lemma join_amp_nonempty (s : string) (r : list string) :
  s <> EmptyString -> join_amp (s :: r) <> EmptyString.
Proof.
  destruct s as [|a s]; [congruence|]. intros _.
  destruct r; cbn; discriminate.
Qed.

Lemma encode_pair_nonempty (kv : string * scalar) : encode_pair kv <> EmptyString.
Proof.
  unfold encode_pair. destruct (quote_plus (fst kv)); cbn; discriminate.
Qed.

(** Reading the encoded string back gives the quoted pairs, in order. *)
Lemma query_pairs_urlencode (q : list (string * scalar)) :
  query_pairs (urlencode q) = map quoted_pair q.
Proof.
  unfold urlencode, query_pairs.
  destruct q as [|kv q]; [reflexivity|].
  pose proof (join_amp_nonempty _ (map encode_pair q) (encode_pair_nonempty kv)) as Hne.
  remember (kv :: q) as l eqn:Hl.
  assert (Hm : map encode_pair l = encode_pair kv :: map encode_pair q) by now subst.
  rewrite <- Hm in Hne.
  destruct (join_amp (map encode_pair l)) eqn:E; [congruence|].
  rewrite <- E, split_join.
  - rewrite map_map. apply map_ext. intros. apply partition_encode_pair.
  - rewrite Hm. discriminate.
  - apply Forall_map, Forall_forall. intros. apply encode_pair_plain.
Qed.

Lemma urlencode_empty_iff (q : list (string * scalar)) :
  urlencode q = EmptyString <-> q = [].
Proof.
  split; [|now intros ->].
  destruct q as [|kv q]; [reflexivity|]. intros H. exfalso.
  exact (join_amp_nonempty _ (map encode_pair q) (encode_pair_nonempty kv) H).
Qed.

Lemma quoted_keys (q : list (string * scalar)) (k : string) :
  In (quote_plus k) (map fst (map quoted_pair q)) <-> In k (map fst q).
Proof.
  rewrite map_map. cbn. rewrite !in_map_iff. split.
  - intros (x & Hx & Hin). apply quote_plus_inj in Hx. eauto.
  - intros (x & Hx & Hin). exists x. now rewrite Hx.
Qed.

Lemma with_key_absent {V} (k : string) (l : list (string * V)) :
  ~ In k (map fst l) -> with_key k l = [].
Proof.
  unfold with_key. induction l as [|[k' v] r IH]; cbn; [reflexivity|]. intros H.
  destruct (String.eqb k' k) eqn:E.
  - apply String.eqb_eq in E. subst. exfalso. auto.
  - apply IH. auto.
Qed.

Lemma with_key_same {V} (k : string) (l : list V) :
  with_key k (map (fun x => (k, x)) l) = map (fun x => (k, x)) l.
Proof.
  unfold with_key. induction l as [|x r IH]; cbn; [reflexivity|].
  now rewrite String.eqb_refl, IH.
Qed.

Lemma with_key_quoted (k : string) (q : list (string * scalar)) :
  with_key (quote_plus k) (map quoted_pair q) = map quoted_pair (with_key k q).
Proof.
  unfold with_key. induction q as [|[k' x] r IH]; [reflexivity|].
  cbn [map filter fst snd quoted_pair].
  destruct (String.eqb k' k) eqn:E.
  - apply String.eqb_eq in E. subst. rewrite String.eqb_refl.
    cbn [map fst snd quoted_pair]. now f_equal.
  - destruct (String.eqb (quote_plus k') (quote_plus k)) eqn:E'; [|exact IH].
    apply String.eqb_eq, quote_plus_inj in E'. subst.
    now rewrite String.eqb_refl in E.
Qed.

(** ** The parameter loop *)

Lemma encode_step_app (acc : list (string * scalar)) (kv : string * pvalue) :
  encode_step acc kv = acc ++ expand kv.
Proof.
  unfold expand, encode_step. destruct kv as [k [[| | | |]| |]]; cbn;
    now rewrite ?app_nil_r.
Qed.

Lemma fold_encode_step (p : params_t) (acc : list (string * scalar)) :
  fold_left encode_step p acc = acc ++ flat_map expand p.
Proof.
  revert acc. induction p as [|kv r IH]; intros acc; cbn.
  - now rewrite app_nil_r.
  - now rewrite IH, encode_step_app, <- app_assoc.
Qed.

Lemma params_tuple_flat_map (p : params_t) : params_tuple p = flat_map expand p.
Proof. unfold params_tuple. now rewrite fold_encode_step. Qed.

Lemma params_tuple_app (p p' : params_t) :
  params_tuple (p ++ p') = params_tuple p ++ params_tuple p'.
Proof. rewrite !params_tuple_flat_map. apply flat_map_app. Qed.

Lemma params_tuple_cons (kv : string * pvalue) (p : params_t) :
  params_tuple (kv :: p) = expand kv ++ params_tuple p.
Proof. now rewrite !params_tuple_flat_map. Qed.

Lemma expand_key (k k' : string) (v : pvalue) (x : scalar) :
  In (k', x) (expand (k, v)) -> k' = k /\ v <> Scalar SNone.
Proof.
  unfold expand, encode_step. destruct v as [[| | | |]| |]; cbn;
    try (intros [[= <- <-]|[]]; split; [reflexivity|discriminate]);
    try contradiction;
    rewrite in_map_iff; intros (y & [= <- <-] & _); split; (reflexivity || discriminate).
Qed.

Lemma params_tuple_key (p : params_t) (k : string) :
  In k (map fst (params_tuple p)) ->
  exists v, In (k, v) p /\ v <> Scalar SNone.
Proof.
  rewrite params_tuple_flat_map, in_map_iff.
  intros ([k' x] & Hk & Hin). cbn in Hk. subst k'.
  apply in_flat_map in Hin as ([k' v] & Hp & He).
  apply expand_key in He as [-> Hv]. eauto.
Qed.

Lemma dict_get_In {V} (d : dict V) (k : string) (v : V) :
  dict_get k d = Some v -> In (k, v) d.
Proof.
  induction d as [|[k' v'] r IH]; cbn; [discriminate|].
  destruct (String.eqb k k') eqn:E.
  - apply String.eqb_eq in E. intros [= ->]. subst. now left.
  - auto.
Qed.

Lemma dict_wf_unique {V} (d : dict V) (k : string) (v v' : V) :
  dict_wf d -> In (k, v) d -> In (k, v') d -> v = v'.
Proof.
  unfold dict_wf, keys. induction d as [|[k0 v0] r IH]; cbn; [contradiction|].
  intros Hnd. inversion Hnd as [|? ? Hnot Hr]; subst.
  intros [E1|H1] [E2|H2].
  - congruence.
  - injection E1 as -> ->. exfalso. apply Hnot. apply in_map_iff. now exists (k, v').
  - injection E2 as -> ->. exfalso. apply Hnot. apply in_map_iff. now exists (k, v).
  - auto.
Qed.

Lemma expand_sequence (k : string) (v : pvalue) (items : list scalar) :
  sequence_of v items -> expand (k, v) = map (fun item => (k, item)) items.
Proof. intros [-> | ->]; reflexivity. Qed.

Lemma tuple_keys_absent (p : params_t) (k : string) :
  ~ In k (keys p) -> ~ In k (map fst (params_tuple p)).
Proof.
  intros H Hin. apply params_tuple_key in Hin as (v & Hv & _).
  apply H. unfold keys. apply in_map_iff. now exists (k, v).
Qed.

(** The pairs of a sequence value, for a sequence of any length. *)
Lemma sequence_pairs (pre post : params_t) (k : string) (v : pvalue) (items : list scalar) :
  dict_wf (pre ++ (k, v) :: post) ->
  sequence_of v items ->
  params_tuple (pre ++ (k, v) :: post)
  = params_tuple pre ++ map (fun item => (k, item)) items ++ params_tuple post
  /\ with_key k (params_tuple (pre ++ (k, v) :: post))
     = map (fun item => (k, item)) items.
Proof.
  intros Hwf Hv.
  assert (E : params_tuple (pre ++ (k, v) :: post)
              = params_tuple pre ++ map (fun item => (k, item)) items ++ params_tuple post).
  { now rewrite params_tuple_app, params_tuple_cons, (expand_sequence k v items Hv). }
  split; [exact E|]. rewrite E.
  unfold dict_wf, keys in Hwf. rewrite map_app in Hwf. cbn in Hwf.
  pose proof (NoDup_remove_2 _ _ _ Hwf) as Hk.
  unfold with_key. rewrite !filter_app.
  fold (with_key k (params_tuple pre)) (with_key k (params_tuple post))
       (with_key k (map (fun item => (k, item)) items)).
  rewrite with_key_same.
  rewrite (with_key_absent k (params_tuple pre)), (with_key_absent k (params_tuple post)).
  - now rewrite app_nil_r.
  - apply tuple_keys_absent. intros H. apply Hk, in_or_app. now right.
  - apply tuple_keys_absent. intros H. apply Hk, in_or_app. now left.
Qed.

(** ** Byte strings and their text *)

Lemma scalar_as_text_pair (k : string) (a b : scalar) :
  scalar_as_text a b -> encode_pair (k, a) = encode_pair (k, b).
Proof.
  intros [s|bs t H]; [reflexivity|].
  unfold encode_pair. cbn [fst snd]. now rewrite (quote_value_decoded bs t H).
Qed.

Lemma items_as_text_pairs (k : string) (l l' : list scalar) :
  Forall2 scalar_as_text l l' ->
  map encode_pair (map (fun item => (k, item)) l)
  = map encode_pair (map (fun item => (k, item)) l').
Proof.
  induction 1 as [|a b l l' Hab _ IH]; cbn [map]; [reflexivity|].
  now rewrite (scalar_as_text_pair k a b Hab), IH.
Qed.

Lemma expand_as_text (k : string) (v v' : pvalue) :
  value_as_text v v' ->
  map encode_pair (expand (k, v)) = map encode_pair (expand (k, v')).
Proof.
  intros [a b Hab|l l' H|l l' H]; unfold expand, encode_step; cbn [app].
  - destruct Hab as [s|bs t Hd]; [reflexivity|].
    cbn [map]. now rewrite (scalar_as_text_pair k _ _ (sat_decoded bs t Hd)).
  - now apply items_as_text_pairs.
  - now apply items_as_text_pairs.
Qed.

Lemma params_as_text_pairs (p p' : params_t) :
  params_as_text p p' ->
  map encode_pair (params_tuple p) = map encode_pair (params_tuple p').
Proof.
  induction 1 as [|[k v] [k' v'] p p' [Hk Hv] _ IH]; [reflexivity|].
  cbn in Hk. subst k'. rewrite !params_tuple_cons, !map_app, IH.
  now rewrite (expand_as_text k v v' Hv).
Qed.

Lemma params_as_text_encode (p p' : params_t) :
  params_as_text p p' -> __encode_parameters p = __encode_parameters p'.
Proof.
  intros H. unfold __encode_parameters, urlencode. now rewrite (params_as_text_pairs p p' H).
Qed.

Lemma params_as_text_build_url (url : string) (p p' : params_t) :
  params_as_text p p' -> __build_url url p = __build_url url p'.
Proof.
  intros H. pose proof (params_as_text_encode p p' H) as He.
  destruct H; unfold __build_url; [reflexivity|]. now rewrite He.
Qed.

Lemma value_as_text_refl (v : pvalue) : value_as_text v v.
Proof.
  destruct v; constructor; try apply sat_same;
    induction items; constructor; auto using sat_same.
Qed.

Lemma params_as_text_refl (p : params_t) : params_as_text p p.
Proof.
  induction p; constructor; auto. split; [reflexivity|apply value_as_text_refl].
Qed.

Lemma decode_value_as_text (v v' : pvalue) :
  decode_value v = Some v' -> value_as_text v v'.
Proof.
  destruct v as [[| |b| |]| |]; cbn; try (intros [= <-]; apply value_as_text_refl).
  destruct (decode_utf8 b) as [t|] eqn:E; [|discriminate].
  intros [= <-]. constructor. now constructor.
Qed.

Lemma decode_items_as_text (p ps : params_t) :
  decode_items p = Some ps -> params_as_text p ps.
Proof.
  revert ps. induction p as [|[k v] r IH]; cbn; intros ps.
  - intros [= <-]. constructor.
  - destruct (decode_value v) as [v'|] eqn:Ev; [|discriminate].
    destruct (decode_items r) as [r'|]; [|discriminate].
    intros [= <-]. constructor.
    + split; [reflexivity|]. now apply decode_value_as_text.
    + now apply IH.
Qed.

Lemma decode_params_as_text (p ps : params_t) :
  decode_params p = Some ps -> params_as_text p ps.
Proof.
  unfold decode_params. destruct (existsb _ p).
  - apply decode_items_as_text.
  - intros [= <-]. apply params_as_text_refl.
Qed.

Lemma decode_utf8_valid (b : bytes) (t : string) :
  decode_utf8 b = Some t -> utf8_valid b = true.
Proof. unfold decode_utf8. destruct (utf8_valid b); [reflexivity|discriminate]. Qed.

Lemma params_as_text_valid (p p' : params_t) :
  params_as_text p p' -> bytes_values_valid p = bytes_values_valid p'.
Proof.
  induction 1 as [|[k v] [k' v'] p p' [_ Hv] _ IH]; [reflexivity|].
  cbn in *. fold (bytes_values_valid p) (bytes_values_valid p'). rewrite IH. f_equal.
  destruct Hv as [a b Hab|l l' H|l l' H]; [|reflexivity|reflexivity].
  destruct Hab as [s|bs t Hd]; [reflexivity|]. apply (decode_utf8_valid bs t Hd).
Qed.

Lemma decode_value_none (v : pvalue) :
  decode_value v = None
  <-> match v with
      | Scalar (SBytes b) => utf8_valid b
      | _ => true
      end = false.
Proof.
  destruct v as [[| |b| |]| |]; cbn; try (split; discriminate).
  unfold decode_utf8. destruct (utf8_valid b); split; (discriminate || reflexivity).
Qed.

Lemma decode_items_none (p : params_t) :
  decode_items p = None <-> bytes_values_valid p = false.
Proof.
  induction p as [|[k v] r IH]; cbn.
  - split; discriminate.
  - fold (bytes_values_valid r).
    rewrite andb_false_iff, <- IH, <- decode_value_none.
    destruct (decode_value v); destruct (decode_items r);
      intuition discriminate.
Qed.

Lemma decode_params_none (p : params_t) :
  decode_params p = None <-> bytes_values_valid p = false.
Proof.
  unfold decode_params.
  destruct (existsb (fun kv => is_bytes (snd kv)) p) eqn:E.
  - apply decode_items_none.
  - split; [discriminate|]. intros H. exfalso.
    induction p as [|[k v] r IH]; cbn in *; [discriminate|].
    apply orb_false_elim in E as [Ev Er].
    destruct v as [[| |b| |]| |]; cbn in *; try discriminate; auto.
Qed.

Lemma str_encode_error_decoded (b : bytes) (t : string) :
  decode_utf8 b = Some t -> str_encode_error t = None.
Proof.
  unfold decode_utf8, str_encode_error, encode_utf8.
  destruct (utf8_valid b) eqn:E; [|discriminate]. intros [= <-].
  now rewrite list_byte_of_string_of_list_byte, E.
Qed.

Lemma scalar_as_text_error (k : string) (a b : scalar) :
  scalar_as_text a b -> encode_pair_error (k, a) = encode_pair_error (k, b).
Proof.
  intros [s|bs t H]; [reflexivity|].
  unfold encode_pair_error. cbn [fst snd quote_value_error].
  now rewrite (str_encode_error_decoded bs t H).
Qed.

Lemma urlencode_error_app (q q' : list (string * scalar)) :
  urlencode_error (q ++ q')
  = match urlencode_error q with
    | Some e => Some e
    | None => urlencode_error q'
    end.
Proof.
  induction q as [|kv q IH]; cbn [app urlencode_error]; [reflexivity|].
  destruct (encode_pair_error kv); [reflexivity|exact IH].
Qed.

Lemma items_as_text_error (k : string) (l l' : list scalar) :
  Forall2 scalar_as_text l l' ->
  urlencode_error (map (fun item => (k, item)) l)
  = urlencode_error (map (fun item => (k, item)) l').
Proof.
  induction 1 as [|a b l l' Hab _ IH]; cbn [map urlencode_error]; [reflexivity|].
  now rewrite (scalar_as_text_error k a b Hab), IH.
Qed.

Lemma expand_as_text_error (k : string) (v v' : pvalue) :
  value_as_text v v' ->
  urlencode_error (expand (k, v)) = urlencode_error (expand (k, v')).
Proof.
  intros [a b Hab|l l' H|l l' H]; unfold expand, encode_step; cbn [app].
  - destruct Hab as [s|bs t Hd]; [reflexivity|].
    cbn [urlencode_error]. now rewrite (scalar_as_text_error k _ _ (sat_decoded bs t Hd)).
  - now apply items_as_text_error.
  - now apply items_as_text_error.
Qed.

Lemma params_as_text_error (p p' : params_t) :
  params_as_text p p' ->
  urlencode_error (params_tuple p) = urlencode_error (params_tuple p').
Proof.
  induction 1 as [|[k v] [k' v'] p p' [Hk Hv] _ IH]; [reflexivity|].
  cbn in Hk. subst k'. rewrite !params_tuple_cons, !urlencode_error_app, IH.
  now rewrite (expand_as_text_error k v v' Hv).
Qed.

Lemma urlencode_error_exn (q : list (string * scalar)) (e : exn) :
  urlencode_error q = Some e -> urlencode_exn e.
Proof.
  induction q as [|[k v] q IH]; cbn [urlencode_error]; [discriminate|].
  destruct (encode_pair_error (k, v)) as [e'|] eqn:E; [|exact IH].
  intros [= <-]. unfold encode_pair_error, str_encode_error in E. cbn [fst snd] in E.
  destruct (utf8_valid (encode_utf8 k)); [|injection E as <-; now left].
  destruct v as [|s| |n|]; cbn in E; try discriminate.
  - unfold str_encode_error in E.
    destruct (utf8_valid (encode_utf8 s)); [discriminate|]. injection E as <-. now left.
  - destruct (too_many_digits _); [|discriminate]. injection E as <-. now right.
Qed.

Lemma build_url_error_exn (p : params_t) (e : exn) :
  build_url_error p = Some e -> urlencode_exn e.
Proof.
  unfold build_url_error. destruct p; [discriminate|]. apply urlencode_error_exn.
Qed.

(** Bytes and the text they decode to raise alike in [__build_url]. *)
Lemma params_as_text_build_url_error (p p' : params_t) :
  params_as_text p p' -> build_url_error p = build_url_error p'.
Proof.
  intros H. pose proof (params_as_text_error p p' H) as He.
  destruct H; unfold build_url_error; [reflexivity|exact He].
Qed.

Lemma decode_params_agree (p p' : params_t) :
  params_as_text p p' ->
  match decode_params p, decode_params p' with
  | Some ps, Some ps' => params_as_text p ps /\ params_as_text p' ps'
  | None, None => True
  | _, _ => False
  end.
Proof.
  intros H. pose proof (params_as_text_valid p p' H) as Hv.
  destruct (decode_params p) as [ps|] eqn:E; destruct (decode_params p') as [ps'|] eqn:E'.
  - split; now apply decode_params_as_text.
  - apply decode_params_none in E'. rewrite <- Hv in E'.
    apply decode_params_none in E'. congruence.
  - apply decode_params_none in E. rewrite Hv in E.
    apply decode_params_none in E. congruence.
  - exact I.
Qed.

(** ** Interpreting a response *)

Lemma successful_ok (r : Response) : successful r -> ok r = true.
Proof.
  unfold successful, ok. intros H.
  destruct (400 <=? status_code r)%Z eqn:E; [|reflexivity].
  apply Z.leb_le in E. lia.
Qed.

Lemma not_ok_iff (r : Response) :
  ok r = false <-> (400 <= status_code r < 600)%Z.
Proof.
  unfold ok. rewrite negb_false_iff, andb_true_iff, Z.leb_le, Z.ltb_lt. tauto.
Qed.

Lemma check_api_error_cases (v : json) (w : World) :
  _check_api_error v w = (Return tt, w)
  \/ exists a, _check_api_error v w = (Raise (ApiError a), w).
Proof.
  unfold _check_api_error.
  destruct v as [| | | | |[|first rest]|d]; cbn; auto.
  - destruct first; cbn; auto.
    destruct (is_str _ _ || dict_mem _ _); unfold raise, ret; eauto.
  - destruct (is_str _ _ || dict_mem _ _); unfold raise, ret; eauto.
Qed.

Lemma check_api_error_indep (v : json) (w w' : World) :
  fst (_check_api_error v w) = fst (_check_api_error v w').
Proof.
  unfold _check_api_error.
  destruct v as [| | | | |[|first rest]|d]; cbn; try reflexivity.
  - destruct first; cbn; try reflexivity.
    destruct (is_str _ _ || dict_mem _ _); reflexivity.
  - destruct (is_str _ _ || dict_mem _ _); reflexivity.
Qed.

Lemma check_api_error_raises (v : json) (d : dict json) (w : World) :
  (v = JDict d \/ exists rest, v = JList (JDict d :: rest)) ->
  (dict_get "result" d = Some (JStr "error") \/ dict_mem "error" d = true) ->
  fst (_check_api_error v w)
  = Raise (ApiError (OfValue (match dict_get "errors" d with
                              | Some errors => errors
                              | None => JStr "Erro desconhecido"
                              end))).
Proof.
  intros Hv Hd.
  assert (Hc : is_str (dict_get "result" d) "error" || dict_mem "error" d = true).
  { destruct Hd as [-> | ->]; [reflexivity | apply orb_true_r]. }
  unfold _check_api_error.
  destruct Hv as [-> | [rest ->]]; cbn; rewrite Hc; reflexivity.
Qed.

Lemma prefix_app (p s : string) : String.prefix p (p ++ s) = true.
Proof.
  induction p as [|c p IH]; cbn; [now destruct s|].
  destruct (ascii_dec c c); [exact IH|congruence].
Qed.

Lemma token_limit_exn x stack t e :
  token_limit limits x stack t = Some e -> decoder_exn e.
Proof.
  unfold token_limit, too_many_digits, decoder_exn.
  destruct x; try discriminate; destruct t; try discriminate;
    repeat match goal with
           | |- context [match int_digits ?a with _ => _ end] => destruct (int_digits a)
           | |- context [if ?b then _ else _] => destruct b
           end;
    try discriminate; intros [= <-]; eauto.
Qed.

Lemma decode_error_exn f : decoder_exn (decode_error limits f).
Proof. unfold decode_error, decoder_exn. destruct (_ <=? _)%N; auto. Qed.

Lemma decode_step_exn x stack t e :
  decode_step limits x stack t = Raise e -> decoder_exn e.
Proof.
  unfold decode_step.
  destruct (token_limit limits x stack t) as [e'|] eqn:E.
  - intros [= <-]. exact (token_limit_exn _ _ _ _ E).
  - destruct (parse_step x stack t); [discriminate|].
    intros [= <-]. apply decode_error_exn.
Qed.

Lemma decode_steps_exn toks x stack e :
  decode_steps limits x stack toks = Raise e -> decoder_exn e.
Proof.
  revert x stack. induction toks as [|t r IH]; intros x stack; cbn; [discriminate|].
  destruct (decode_step limits x stack t) as [[x' stack']|e'] eqn:E.
  - apply IH.
  - intros [= <-]. exact (decode_step_exn _ _ _ _ E).
Qed.

Lemma decode_from_exn s m x stack e :
  decode_from limits m x stack s = Raise e -> decoder_exn e.
Proof.
  revert m x stack. induction s as [|c r IH]; intros m x stack; cbn.
  - destruct (lex_end m) as [toks|]; [|intros [= <-]; apply decode_error_exn].
    destruct (decode_steps limits x stack toks) as [[x' stack']|e'] eqn:E.
    + destruct x'; try discriminate; intros [= <-]; apply decode_error_exn.
    + intros [= <-]. exact (decode_steps_exn _ _ _ _ E).
  - destruct (lex_step m c) as [toks m'].
    destruct (decode_steps limits x stack toks) as [[x' stack']|e'] eqn:E.
    + destruct m' as [m''|]; [apply IH|]. intros [= <-]. apply decode_error_exn.
    + intros [= <-]. exact (decode_steps_exn _ _ _ _ E).
Qed.

(** The decoder raises JSONDecodeError, RecursionError or the ValueError of
    the digit limit, and nothing else. *)
Lemma json_decode_exn text e : json_decode limits text = Raise e -> decoder_exn e.
Proof.
  unfold json_decode. destruct (String.prefix byte_order_mark text).
  - intros [= <-]. now left.
  - apply decode_from_exn.
Qed.

(** More room on the stack changes no result of the decoder other than
    RecursionError. *)
Lemma fits_more (l : Limits) (depth : nat) (levels : N) :
  (decoder_depth l <= decoder_depth limits)%N ->
  fits l depth levels = true -> fits limits depth levels = true.
Proof. unfold fits. rewrite !N.leb_le. lia. Qed.

Lemma decode_error_more (l : Limits) (f : fault) :
  (decoder_depth l <= decoder_depth limits)%N ->
  decode_error l f <> RecursionError ->
  decode_error limits f = decode_error l f.
Proof.
  unfold decode_error. intros Hd.
  destruct (levels_of_fault f <=? decoder_depth l)%N eqn:E; [|congruence].
  intros _. apply N.leb_le in E.
  destruct (levels_of_fault f <=? decoder_depth limits)%N eqn:E'; [reflexivity|].
  apply N.leb_gt in E'. lia.
Qed.

Lemma token_limit_more (l : Limits) x stack t :
  int_max_str_digits l = int_max_str_digits limits ->
  (decoder_depth l <= decoder_depth limits)%N ->
  token_limit l x stack t <> Some RecursionError ->
  token_limit limits x stack t = token_limit l x stack t.
Proof.
  intros Hm Hd. unfold token_limit, too_many_digits. rewrite Hm.
  destruct x; try reflexivity; destruct t; try reflexivity;
    try destruct (constant_prefix s); try reflexivity;
    match goal with
    | |- context [fits l ?k ?n] =>
        destruct (fits l k n) eqn:E; [|congruence];
        intros _; now rewrite (fits_more l k n Hd E)
    end.
Qed.

Lemma decode_step_more (l : Limits) x stack t :
  int_max_str_digits l = int_max_str_digits limits ->
  (decoder_depth l <= decoder_depth limits)%N ->
  decode_step l x stack t <> Raise RecursionError ->
  decode_step limits x stack t = decode_step l x stack t.
Proof.
  intros Hm Hd. unfold decode_step. intros H.
  rewrite (token_limit_more l x stack t Hm Hd).
  - destruct (token_limit l x stack t); [reflexivity|].
    destruct (parse_step x stack t); [reflexivity|].
    rewrite (decode_error_more l _ Hd); [reflexivity|]. congruence.
  - intros E. rewrite E in H. congruence.
Qed.

Lemma decode_steps_more (l : Limits) toks x stack :
  int_max_str_digits l = int_max_str_digits limits ->
  (decoder_depth l <= decoder_depth limits)%N ->
  decode_steps l x stack toks <> Raise RecursionError ->
  decode_steps limits x stack toks = decode_steps l x stack toks.
Proof.
  intros Hm Hd. revert x stack.
  induction toks as [|t r IH]; intros x stack; cbn; [reflexivity|]. intros H.
  rewrite (decode_step_more l x stack t Hm Hd).
  - destruct (decode_step l x stack t) as [[x' stack']|e]; [|reflexivity]. now apply IH.
  - intros E. rewrite E in H. congruence.
Qed.

Lemma decode_from_more (l : Limits) s m x stack :
  int_max_str_digits l = int_max_str_digits limits ->
  (decoder_depth l <= decoder_depth limits)%N ->
  decode_from l m x stack s <> Raise RecursionError ->
  decode_from limits m x stack s = decode_from l m x stack s.
Proof.
  intros Hm Hd. revert m x stack.
  induction s as [|c r IH]; intros m x stack; cbn.
  - destruct (lex_end m) as [toks|].
    + intros H. rewrite (decode_steps_more l toks x stack Hm Hd).
      * destruct (decode_steps l x stack toks) as [[x' stack']|e]; [|reflexivity].
        destruct x'; try reflexivity;
          (rewrite (decode_error_more l _ Hd); [reflexivity|congruence]).
      * intros E. rewrite E in H. congruence.
    + intros H. rewrite (decode_error_more l _ Hd); [reflexivity|congruence].
  - destruct (lex_step m c) as [toks m']. intros H.
    rewrite (decode_steps_more l toks x stack Hm Hd).
    + destruct (decode_steps l x stack toks) as [[x' stack']|e]; [|reflexivity].
      destruct m' as [m''|]; [now apply IH|].
      rewrite (decode_error_more l _ Hd); [reflexivity|congruence].
    + intros E. rewrite E in H. congruence.
Qed.

Lemma more_room (l : Limits) (text : string) :
  int_max_str_digits l = int_max_str_digits limits ->
  (decoder_depth l <= decoder_depth limits)%N ->
  json_decode l text <> Raise RecursionError ->
  json_decode limits text = json_decode l text.
Proof.
  intros Hm Hd. unfold json_decode.
  destruct (String.prefix byte_order_mark text); [reflexivity|].
  now apply decode_from_more.
Qed.

(** Every call has the [minimum_depth]. *)
Lemma least_room_le : (decoder_depth (least_room limits) <= decoder_depth limits)%N.
Proof. unfold decoder_depth, least_room. cbn [stack_room]. lia. Qed.

Lemma text_result_value (text : string) (v : json) (w : World) :
  json_decode limits text = Return v ->
  text_result text
  = match fst (_check_api_error v w) with
    | Return _ => Return v
    | Raise e => Raise e
    end.
Proof.
  intros H. unfold text_result. rewrite H.
  now rewrite (check_api_error_indep v fresh_process w).
Qed.

Lemma text_result_text (text : string) :
  json_decode limits text = Raise JSONDecodeError -> text_result text = Return (JStr text).
Proof. intros H. unfold text_result. now rewrite H. Qed.

(** What [__parse_data] raises for a text: what the decoder raises, the
    JSONDecodeError apart, or ApiError. *)
Lemma text_result_raises (text : string) (e : exn) :
  text_result text = Raise e ->
  (decoder_exn e /\ e <> JSONDecodeError) \/ exists a, e = ApiError a.
Proof.
  unfold text_result. destruct (json_decode limits text) as [v|e'] eqn:E.
  - destruct (check_api_error_cases v fresh_process) as [H|[a H]]; rewrite H; cbn.
    + discriminate.
    + intros [= <-]. eauto.
  - pose proof (json_decode_exn _ _ E) as He.
    destruct e'; try discriminate; intros [= <-]; left; (split; [exact He|discriminate]).
Qed.

Lemma text_result_kind (text : string) : result_of_answer (text_result text) = true.
Proof.
  destruct (text_result text) as [v|e] eqn:E; [reflexivity|].
  destruct (text_result_raises _ _ E) as [[[->|[->|[n ->]]] Hne]|[a ->]];
    try reflexivity.
  - now destruct Hne.
  - unfold result_of_answer, int_of_str_message. apply prefix_app.
Qed.

Lemma parse_data_str (s : string) (w : World) :
  __parse_data (AsStr s) w = (text_result s, log_event w (EvJsonLoads s)).
Proof.
  unfold __parse_data, try_json, bind, as_text, loads, bind, emit, text_result. cbn.
  fold (log_event w (EvJsonLoads s)).
  destruct (json_decode limits s) as [v|e]; cbn.
  - rewrite (check_api_error_indep v fresh_process (log_event w (EvJsonLoads s))).
    destruct (check_api_error_cases v (log_event w (EvJsonLoads s))) as [H|[a H]];
      rewrite H; reflexivity.
  - destruct e; reflexivity.
Qed.

Lemma parse_data_bytes (b : bytes) (w : World) :
  __parse_data (AsBytes b) w =
  match decode_utf8 b with
  | None => (Raise UnicodeDecodeError, w)
  | Some text => (text_result text, log_event w (EvJsonLoads text))
  end.
Proof.
  destruct (decode_utf8 b) as [text|] eqn:E.
  - rewrite <- parse_data_str.
    unfold __parse_data, try_json, bind, as_text. now rewrite E.
  - unfold __parse_data, try_json, bind, as_text. now rewrite E.
Qed.

Lemma interpret_cases (r : Response) (w : World) :
  interpret r w =
  if negb (ok r) then (Raise (ApiError (OfResponse r)), w)
  else match decode_utf8 (content r) with
       | None => (Raise UnicodeDecodeError, w)
       | Some text => (text_result text, log_event w (EvJsonLoads text))
       end.
Proof.
  unfold interpret. destruct (negb (ok r)); [reflexivity|]. apply parse_data_bytes.
Qed.

Lemma interpret_trace (r : Response) (w : World) :
  exists l, trace (snd (interpret r w)) = trace w ++ l
            /\ transports l = []
            /\ (ok r = false -> l = []).
Proof.
  rewrite interpret_cases. destruct (ok r); cbn.
  - destruct (decode_utf8 (content r)) as [text|]; cbn.
    + exists [EvJsonLoads text]. repeat split; discriminate.
    + exists []. rewrite app_nil_r. repeat split.
  - exists []. rewrite app_nil_r. repeat split.
Qed.

Lemma interpret_session (r : Response) (w : World) :
  cls_session (snd (interpret r w)) = cls_session w
  /\ next_object (snd (interpret r w)) = next_object w.
Proof.
  rewrite interpret_cases. destruct (negb (ok r)); cbn; auto.
  destruct (decode_utf8 (content r)) as [text|]; cbn; auto.
Qed.

Lemma interpret_indep (r : Response) (w w' : World) :
  fst (interpret r w) = fst (interpret r w').
Proof.
  rewrite !interpret_cases. destruct (negb (ok r)); [reflexivity|].
  destruct (decode_utf8 (content r)) as [text|]; reflexivity.
Qed.

(** What follows the call of the session method adds no transport call
    and leaves the session as it is. *)
Lemma after_send_trace (method url : string) (o : result Response) (w : World) :
  exists l, trace (snd (after_send method url o w)) = trace w ++ l
            /\ transports l = [].
Proof.
  destruct o as [r|e]; cbn [after_send].
  - destruct (interpret_trace r w) as (l & Hl & Ht & _). eauto.
  - destruct e; cbn;
      solve [ exists []; now rewrite app_nil_r | eexists; split; reflexivity ].
Qed.

Lemma after_send_session (method url : string) (o : result Response) (w : World) :
  cls_session (snd (after_send method url o w)) = cls_session w
  /\ next_object (snd (after_send method url o w)) = next_object w.
Proof.
  destruct o as [r|e]; cbn [after_send]; [apply interpret_session|].
  destruct e; cbn; auto.
Qed.

Lemma after_send_indep (method url : string) (o : result Response) (w w' : World) :
  fst (after_send method url o w) = fst (after_send method url o w').
Proof.
  destruct o as [r|e]; cbn [after_send]; [apply interpret_indep|].
  destruct e; reflexivity.
Qed.

(** ** The session and the plan of a call *)

Lemma skipn_length_app {A} (l l' : list A) : skipn (List.length l) (l ++ l') = l'.
Proof. induction l; cbn; auto. Qed.

Lemma events_of_call_log (w w' : World) (l : list event) :
  trace w' = trace w ++ l -> events_of_call w w' = l.
Proof. unfold events_of_call. intros ->. apply skipn_length_app. Qed.

Lemma transports_app (l l' : list event) :
  transports (l ++ l') = transports l ++ transports l'.
Proof. apply flat_map_app. Qed.

Lemma get_session_returns (w : World) :
  exists s, _get_session w = (Return s, snd (_get_session w))
            /\ cls_session (snd (_get_session w)) = Some s
            /\ trace (snd (_get_session w)) = trace w.
Proof.
  unfold _get_session. destruct (cls_session w) eqn:E; cbn.
  - exists s. auto.
  - eexists. repeat split.
Qed.

Lemma get_session_existing (w : World) (s : Session) :
  cls_session w = Some s -> _get_session w = (Return s, w).
Proof. unfold _get_session. now intros ->. Qed.

Lemma planned_via s url method timeout ps headers q :
  planned s url method timeout ps headers = Return q -> via q = s.
Proof.
  unfold planned.
  repeat match goal with
         | |- context [String.eqb method ?m] => destruct (String.eqb method m)
         end;
    try destruct (build_url_error ps); intros [= <-]; reflexivity.
Qed.

Lemma unsupported_not_planned session url method timeout ps headers :
  supported_method method = false ->
  planned session url (upper method) timeout ps headers
  = Raise (ValueError ("Método HTTP inválido: " ++ upper method)).
Proof.
  unfold supported_method, planned. intros H.
  repeat (apply orb_false_elim in H as [H ?]).
  rewrite !upper_eq_nocase by reflexivity.
  repeat match goal with E : eq_nocase _ _ = false |- _ => rewrite E; clear E end.
  reflexivity.
Qed.

(** The plan of a GET call. *)
Lemma planned_get session url method timeout ps headers :
  eq_nocase method "GET" = true ->
  planned session url (upper method) timeout ps headers
  = match build_url_error ps with
    | Some e => Raise e
    | None => Return {| via := session; method_of := GET;
                        target := __build_url url ps;
                        query := None; data := None;
                        req_headers := headers; req_timeout := timeout |}
    end.
Proof.
  intros Hm. unfold planned. rewrite upper_eq_nocase by reflexivity. now rewrite Hm.
Qed.

(** ** The shape of a call *)

Section Call.

Variables (net : network) (url method : string) (timeout : Z).
Variables (params : option params_t) (headers : option headers_t).
Variable w : World.

Local Abbreviation the_call := (request_url net url method timeout params headers w).
Local Abbreviation sent := (transports (events_of_call w (snd the_call))).
Local Abbreviation failure_log :=
  (EvLogException ("[URLRequest] Falha na requisição " ++ upper method ++ " " ++ url)).

Lemma request_url_shape s w1 :
  _get_session w = (Return s, w1) ->
  the_call =
  match decode_params (params_or_empty params) with
  | None => (Raise UnicodeDecodeError, w1)
  | Some ps =>
      match planned s url (upper method) timeout ps headers with
      | Raise e => (Raise e, w1)
      | Return q =>
          after_send method url (outcome (net q)) (log_event w1 (EvTransport q))
      end
  end.
Proof.
  intros Hs. unfold request_url, bind at 1. rewrite Hs.
  fold (params_or_empty params).
  unfold bind at 1.
  destruct (decode_params (params_or_empty params)) as [ps|];
    cbn [of_option ret raise]; [|reflexivity].
  unfold bind, try_request, planned, interpret, build_url.
  repeat match goal with
         | |- context [String.eqb (upper method) ?m] =>
             destruct (String.eqb (upper method) m)
         end; cbn [raise]; try reflexivity;
    try (destruct (build_url_error ps) as [e|] eqn:He; cbn [raise ret];
         [destruct (build_url_error_exn _ _ He) as [-> | ->]; reflexivity|]);
    unfold send, emit, log_exception, after_send, interpret; cbn;
    match goal with |- context [net ?q] => destruct (outcome (net q)) as [r|[]] end;
    reflexivity.
Qed.

(** The world after the call: the session is the one the accessor gave,
    nothing was allocated after it, and the trace has grown by the planned
    request, if any, followed by events that are no transport calls. *)
Lemma request_url_world s w1 :
  _get_session w = (Return s, w1) ->
  cls_session (snd the_call) = Some s
  /\ next_object (snd the_call) = next_object w1
  /\ exists l,
       trace (snd the_call) = trace w ++ l
       /\ transports l
          = match decode_params (params_or_empty params) with
            | None => []
            | Some ps =>
                match planned s url (upper method) timeout ps headers with
                | Raise _ => []
                | Return q => [q]
                end
            end.
Proof.
  intros Hs.
  destruct (get_session_returns w) as (s' & Hs' & Hc & Ht).
  rewrite Hs in Hs', Hc, Ht. injection Hs' as <-. cbn [snd] in Hc, Ht.
  rewrite (request_url_shape _ _ Hs).
  destruct (decode_params (params_or_empty params)) as [ps|].
  2:{ cbn. repeat split; auto. exists []. now rewrite app_nil_r. }
  destruct (planned s url (upper method) timeout ps headers) as [q|e].
  2:{ cbn. repeat split; auto. exists []. now rewrite app_nil_r. }
  destruct (after_send_session method url (outcome (net q)) (log_event w1 (EvTransport q)))
    as [-> ->].
  destruct (after_send_trace method url (outcome (net q)) (log_event w1 (EvTransport q)))
    as (l & -> & Hl).
  cbn. repeat split; auto. exists (EvTransport q :: l).
  rewrite Ht, <- app_assoc. split; [reflexivity|].
  cbn. fold (transports l). now rewrite Hl.
Qed.

(** The requests a call hands to the transport: none, or the planned
    one. *)
Lemma sent_requests s w1 :
  _get_session w = (Return s, w1) ->
  sent = match decode_params (params_or_empty params) with
         | None => []
         | Some ps =>
             match planned s url (upper method) timeout ps headers with
             | Raise _ => []
             | Return q => [q]
             end
         end.
Proof.
  intros Hs.
  destruct (request_url_world _ _ Hs) as (_ & _ & l & Hl & Ht).
  now rewrite (events_of_call_log w _ l Hl).
Qed.

(** A call whose request is [q]: the parameters decoded, [q] was planned,
    and the call went on with what the session method did. *)
Lemma sent_shape q :
  In q sent ->
  exists s w1 ps,
    _get_session w = (Return s, w1)
    /\ trace w1 = trace w
    /\ decode_params (params_or_empty params) = Some ps
    /\ planned s url (upper method) timeout ps headers = Return q
    /\ sent = [q]
    /\ the_call = after_send method url (outcome (net q)) (log_event w1 (EvTransport q)).
Proof.
  destruct (get_session_returns w) as (s & Hs & _ & Ht).
  set (w1 := snd (_get_session w)) in *.
  intros Hin. rewrite (sent_requests _ _ Hs) in *.
  rewrite (request_url_shape _ _ Hs).
  destruct (decode_params (params_or_empty params)) as [ps|]; [|contradiction].
  destruct (planned s url (upper method) timeout ps headers) as [q0|e] eqn:Hp;
    [|contradiction].
  destruct Hin as [<-|[]].
  exists s, w1, ps. repeat split; auto.
Qed.

(** A call that got an answer from the transport decoded its parameters,
    planned one request, and went on to interpret the answer. *)
Lemma answered_shape resp :
  answered_with net w (snd the_call) resp ->
  exists s w1 ps q,
    _get_session w = (Return s, w1)
    /\ trace w1 = trace w
    /\ decode_params (params_or_empty params) = Some ps
    /\ planned s url (upper method) timeout ps headers = Return q
    /\ net q = Responded resp
    /\ the_call = interpret resp (log_event w1 (EvTransport q)).
Proof.
  intros (q & Hin & Hnet).
  destruct (sent_shape q Hin) as (s & w1 & ps & Hs & Ht & Hd & Hp & _ & Hc).
  exists s, w1, ps, q. rewrite Hnet in Hc. repeat split; auto.
Qed.

(** A successful response with a JSON body: the outcome is that of the
    inspection of the parsed value. *)
Lemma answered_json resp v :
  answered_with net w (snd the_call) resp ->
  successful resp ->
  body_json (content resp) = Some v ->
  fst the_call
  = match fst (_check_api_error v w) with
    | Return _ => Return v
    | Raise e => Raise e
    end.
Proof.
  intros Ha Hok Hb.
  destruct (answered_shape _ Ha) as (s & w1 & ps & q & _ & _ & _ & _ & _ & ->).
  rewrite interpret_cases, (successful_ok _ Hok). cbn [negb].
  unfold body_json in Hb.
  destruct (decode_utf8 (content resp)) as [text|]; [|discriminate].
  destruct (json_decode limits text) as [v'|e] eqn:Hj; [|discriminate].
  injection Hb as ->. cbn [fst]. now apply text_result_value.
Qed.

(** A successful response whose body is text that the decoder rejects
    with JSONDecodeError: the text is the result. *)
Lemma answered_text resp text :
  answered_with net w (snd the_call) resp ->
  ok resp = true ->
  decode_utf8 (content resp) = Some text ->
  json_decode limits text = Raise JSONDecodeError ->
  fst the_call = Return (JStr text).
Proof.
  intros Ha Hok Hd Hj.
  destruct (answered_shape _ Ha) as (s & w1 & ps & q & _ & _ & _ & _ & _ & ->).
  rewrite interpret_cases, Hok, Hd. cbn [negb fst]. now apply text_result_text.
Qed.

(** A call with an unsupported method ends before the transport is
    reached. *)
Lemma unsupported_outcome :
  supported_method method = false ->
  sent = []
  /\ fst the_call
     = if bytes_values_valid (params_or_empty params)
       then Raise (ValueError ("Método HTTP inválido: " ++ upper method))
       else Raise UnicodeDecodeError.
Proof.
  intros Hm.
  destruct (get_session_returns w) as (s & Hs & _ & Ht).
  rewrite (sent_requests _ _ Hs), (request_url_shape _ _ Hs).
  destruct (decode_params (params_or_empty params)) as [ps|] eqn:Hd.
  - rewrite (unsupported_not_planned _ _ _ _ _ _ Hm). cbn [fst].
    split; [reflexivity|].
    destruct (bytes_values_valid (params_or_empty params)) eqn:Hv; [reflexivity|].
    apply decode_params_none in Hv. congruence.
  - cbn [fst]. split; [reflexivity|].
    apply decode_params_none in Hd. now rewrite Hd.
Qed.

(** The plan of a GET call, from the mapping as the caller gave it. *)
Lemma get_plan s ps :
  eq_nocase method "GET" = true ->
  decode_params (params_or_empty params) = Some ps ->
  planned s url (upper method) timeout ps headers
  = match build_url_error (params_or_empty params) with
    | Some e => Raise e
    | None => Return {| via := s; method_of := GET;
                        target := __build_url url (params_or_empty params);
                        query := None; data := None;
                        req_headers := headers; req_timeout := timeout |}
    end.
Proof.
  intros Hm Hd. rewrite (planned_get _ _ _ _ _ _ Hm).
  pose proof (decode_params_as_text _ _ Hd) as Ha.
  now rewrite (params_as_text_build_url url _ _ Ha),
              (params_as_text_build_url_error _ _ Ha).
Qed.

(** What a GET call sends: one request, to the URL built from the mapping
    as the caller gave it. *)
Lemma get_request_sent s w1 :
  _get_session w = (Return s, w1) ->
  eq_nocase method "GET" = true ->
  bytes_values_valid (params_or_empty params) = true ->
  build_url_error (params_or_empty params) = None ->
  sent = [ {| via := s; method_of := GET;
              target := __build_url url (params_or_empty params);
              query := None; data := None;
              req_headers := headers; req_timeout := timeout |} ].
Proof.
  intros Hs Hm Hv He.
  rewrite (sent_requests _ _ Hs).
  destruct (decode_params (params_or_empty params)) as [ps|] eqn:Hd.
  - now rewrite (get_plan s ps Hm Hd), He.
  - apply decode_params_none in Hd. congruence.
Qed.

Lemma get_request_target q :
  eq_nocase method "GET" = true ->
  In q sent ->
  method_of q = GET /\ target q = __build_url url (params_or_empty params).
Proof.
  intros Hm.
  destruct (get_session_returns w) as (s & Hs & _).
  rewrite (sent_requests _ _ Hs).
  destruct (decode_params (params_or_empty params)) as [ps|] eqn:Hd; [|contradiction].
  rewrite (get_plan s ps Hm Hd).
  destruct (build_url_error (params_or_empty params)); [contradiction|].
  intros [<-|[]]. cbn. split; reflexivity.
Qed.

End Call.

(** ** Embedded errors, failure statuses and plain bodies *)

(** The body of the example is JSON in every call: it takes two levels. *)
Lemma error_body_json :
  body_json (encode_utf8 error_body)
  = Some (JDict [("result", JStr "error"); ("errors", JList [JStr "bad id"])]).
Proof.
  unfold body_json.
  change (decode_utf8 (encode_utf8 error_body)) with (Some error_body).
  cbv beta iota.
  rewrite (more_room (least_room limits) error_body);
    [reflexivity|reflexivity|apply least_room_le|discriminate].
Qed.

(** The text pong is no JSON, and every call has the levels to say so. *)
Lemma pong_rejected : json_decode limits "pong" = Raise JSONDecodeError.
Proof.
  rewrite (more_room (least_room limits) "pong");
    [reflexivity|reflexivity|apply least_room_le|discriminate].
Qed.

(** C1: a successful (2xx) response whose JSON body is a mapping, or a
    non-empty list whose first element is a mapping, with a 'result' field
    equal to 'error' or with an 'error' key makes request_url fail with an
    ApiError carrying the mapping's 'errors' field when it has one and the
    marker 'Erro desconhecido' otherwise; status 200 with body
    {"result":"error","errors":["bad id"]} gives ApiError(["bad id"]). *)
Theorem embedded_error_raises_ApiError :
  (forall net url method timeout params headers w resp v d,
      answered_with net w (snd (request_url net url method timeout params headers w)) resp ->
      successful resp ->
      body_json (content resp) = Some v ->
      (v = JDict d \/ exists rest, v = JList (JDict d :: rest)) ->
      (dict_get "result" d = Some (JStr "error") \/ dict_mem "error" d = true) ->
      (forall errors, dict_get "errors" d = Some errors ->
         fst (request_url net url method timeout params headers w)
         = Raise (ApiError (OfValue errors)))
      /\ (dict_get "errors" d = None ->
         fst (request_url net url method timeout params headers w)
         = Raise (ApiError (OfValue (JStr "Erro desconhecido")))))
  /\ (forall net url method timeout params headers w resp,
      answered_with net w (snd (request_url net url method timeout params headers w)) resp ->
      status_code resp = 200%Z ->
      content resp = encode_utf8 error_body ->
      fst (request_url net url method timeout params headers w)
      = Raise (ApiError (OfValue (JList [JStr "bad id"])))).
Proof.
  assert (General : forall net url method timeout params headers w resp v d,
      answered_with net w (snd (request_url net url method timeout params headers w)) resp ->
      successful resp ->
      body_json (content resp) = Some v ->
      (v = JDict d \/ exists rest, v = JList (JDict d :: rest)) ->
      (dict_get "result" d = Some (JStr "error") \/ dict_mem "error" d = true) ->
      fst (request_url net url method timeout params headers w)
      = Raise (ApiError (OfValue (match dict_get "errors" d with
                                  | Some errors => errors
                                  | None => JStr "Erro desconhecido"
                                  end)))).
  { intros * Ha Hok Hb Hv Hd.
    rewrite (answered_json _ _ _ _ _ _ _ _ _ Ha Hok Hb).
    now rewrite (check_api_error_raises v d w Hv Hd). }
  split.
  - intros * Ha Hok Hb Hv Hd.
    pose proof (General _ _ _ _ _ _ _ _ _ _ Ha Hok Hb Hv Hd) as G.
    split.
    + intros errors He. now rewrite He in G.
    + intros He. now rewrite He in G.
  - intros * Ha Hst Hc.
    apply (General _ _ _ _ _ _ _ _
             (JDict [("result", JStr "error"); ("errors", JList [JStr "bad id"])])
             [("result", JStr "error"); ("errors", JList [JStr "bad id"])] Ha).
    + unfold successful. rewrite Hst. lia.
    + rewrite Hc. apply error_body_json.
    + now left.
    + now left.
Qed.

(** C2: when the transport's response has a status that is not ok (400 to
    599, such as 404), request_url fails with the ApiError constructed from
    that response, whatever the body holds, and the JSON decoder is not
    called. *)
Theorem http_failure_raises_ApiError :
  forall net url method timeout params headers w resp,
    answered_with net w (snd (request_url net url method timeout params headers w)) resp ->
    ok resp = false ->
    fst (request_url net url method timeout params headers w)
    = Raise (ApiError (OfResponse resp))
    /\ decoder_calls
         (events_of_call w (snd (request_url net url method timeout params headers w)))
       = [].
Proof.
  intros * Ha Hok.
  destruct (answered_shape _ _ _ _ _ _ _ _ Ha)
    as (s & w1 & ps & q & _ & Ht & _ & _ & _ & ->).
  rewrite interpret_cases, Hok. cbn [negb fst snd]. split; [reflexivity|].
  rewrite (events_of_call_log w _ [EvTransport q]); [reflexivity|].
  cbn. now rewrite Ht.
Qed.

(** C4 (as amended): when the response has a successful status and its
    body is well-formed UTF-8 that json.loads rejects with JSONDecodeError,
    request_url returns the decoded text as it is; status 200 with body
    pong returns the text pong. *)
Theorem non_json_body_returned_as_text :
  (forall net url method timeout params headers w resp text,
      answered_with net w (snd (request_url net url method timeout params headers w)) resp ->
      successful resp ->
      decode_utf8 (content resp) = Some text ->
      json_decode limits text = Raise JSONDecodeError ->
      fst (request_url net url method timeout params headers w) = Return (JStr text))
  /\ (forall net url method timeout params headers w resp,
      answered_with net w (snd (request_url net url method timeout params headers w)) resp ->
      status_code resp = 200%Z ->
      content resp = encode_utf8 "pong" ->
      fst (request_url net url method timeout params headers w) = Return (JStr "pong")).
Proof.
  split.
  - intros * Ha Hok Hd Hj.
    exact (answered_text _ _ _ _ _ _ _ _ _ Ha (successful_ok _ Hok) Hd Hj).
  - intros * Ha Hst Hc.
    apply (answered_text _ _ _ _ _ _ _ _ _ Ha).
    + apply successful_ok. unfold successful. rewrite Hst. lia.
    + rewrite Hc. reflexivity.
    + apply pong_rejected.
Qed.

(** C10: a successful response whose JSON body is a number, a string, a
    boolean or null is returned as that value; and whenever the inspection
    of the parsed value does not raise, the value returned is the whole
    parsed value, also when only the first element of a list was looked
    at. *)
Theorem clean_payload_returned_unchanged :
  (forall net url method timeout params headers w resp v,
      answered_with net w (snd (request_url net url method timeout params headers w)) resp ->
      successful resp ->
      body_json (content resp) = Some v ->
      is_container v = false ->
      fst (request_url net url method timeout params headers w) = Return v)
  /\ (forall net url method timeout params headers w resp v w0,
      answered_with net w (snd (request_url net url method timeout params headers w)) resp ->
      successful resp ->
      body_json (content resp) = Some v ->
      fst (_check_api_error v w0) = Return tt ->
      fst (request_url net url method timeout params headers w) = Return v)
  /\ (forall net url method timeout params headers w resp v v',
      answered_with net w (snd (request_url net url method timeout params headers w)) resp ->
      successful resp ->
      body_json (content resp) = Some v ->
      fst (request_url net url method timeout params headers w) = Return v' ->
      v' = v).
Proof.
  split; [|split].
  - intros * Ha Hok Hb Hs.
    rewrite (answered_json _ _ _ _ _ _ _ _ _ Ha Hok Hb).
    destruct v; try discriminate; reflexivity.
  - intros * Ha Hok Hb Hc.
    rewrite (answered_json _ _ _ _ _ _ _ _ _ Ha Hok Hb).
    now rewrite (check_api_error_indep v w w0), Hc.
  - intros * Ha Hok Hb Hr.
    rewrite (answered_json _ _ _ _ _ _ _ _ _ Ha Hok Hb) in Hr.
    destruct (fst (_check_api_error v w)); congruence.
Qed.

(** ** The method *)

(** C3 (as amended): a call whose method, compared without regard to case,
    is none of GET, POST, PUT, DELETE (patch in any casing is one) performs
    no transport call and fails; the failure is the invalid-method error
    when every byte-string value at the top of the parameter mapping is
    valid UTF-8, and the UnicodeDecodeError of the parameter decoding, which
    runs first, otherwise. *)
Theorem unsupported_method_rejected :
  (forall net url method timeout params headers w,
      supported_method method = false ->
      transports (events_of_call w (snd (request_url net url method timeout params headers w)))
      = []
      /\ (bytes_values_valid (params_or_empty params) = true ->
          exists e, fst (request_url net url method timeout params headers w) = Raise e
                    /\ InvalidMethod e)
      /\ (bytes_values_valid (params_or_empty params) = false ->
          fst (request_url net url method timeout params headers w)
          = Raise UnicodeDecodeError))
  /\ (forall method, eq_nocase method "patch" = true -> supported_method method = false).
Proof.
  split.
  - intros * Hm.
    destruct (unsupported_outcome net url method timeout params headers w Hm) as [Ht Hr].
    split; [exact Ht|]. rewrite Hr. split; intros ->.
    + eexists. split; [reflexivity|]. now exists (upper method).
    + reflexivity.
  - intros method H. unfold eq_nocase in H. apply String.eqb_eq in H.
    unfold supported_method, eq_nocase. rewrite H. reflexivity.
Qed.

(** ** The encoded parameters *)

(** C5: when the mapping holds None under a key, the pairs built by
    __encode_parameters hold no pair for that key, the encoded query string
    read back holds no pair whose key is the quoted key, and so does the
    query string of the URL a GET request is sent to. *)
Theorem null_value_key_absent :
  forall params k,
    dict_wf params ->
    dict_get k params = Some (Scalar SNone) ->
    ~ In k (map fst (params_tuple params))
    /\ ~ In (quote_plus k) (map fst (query_pairs (__encode_parameters params)))
    /\ (forall net url method timeout headers w q,
           eq_nocase method "GET" = true ->
           In q (transports
                   (events_of_call w
                      (snd (request_url net url method timeout (Some params) headers w)))) ->
           exists qs, target q = (url ++ "?" ++ qs)%string
                      /\ ~ In (quote_plus k) (map fst (query_pairs qs))).
Proof.
  intros params k Hwf Hget.
  assert (Habs : ~ In k (map fst (params_tuple params))).
  { intros Hin. apply params_tuple_key in Hin as (v & Hv & Hne).
    apply Hne. apply (dict_wf_unique params k v (Scalar SNone) Hwf Hv).
    now apply dict_get_In. }
  assert (Hqs : ~ In (quote_plus k) (map fst (query_pairs (__encode_parameters params)))).
  { unfold __encode_parameters. rewrite query_pairs_urlencode, quoted_keys. exact Habs. }
  split; [exact Habs|]. split; [exact Hqs|].
  intros * Hm Hq. apply get_request_target in Hq as [_ Hq]; [|exact Hm].
  exists (__encode_parameters params). split; [|exact Hqs].
  rewrite Hq. cbn [params_or_empty]. destruct params; [discriminate|reflexivity].
Qed.

(** C6: a list or tuple [a, b, c] under key k makes exactly the three pairs
    (k, a), (k, b), (k, c), in that order, between the pairs of the entries
    before and after it; the encoded string reads back the same way, and
    for the mapping with this one entry it is k=a&k=b&k=c with key and
    values quoted. *)
Theorem sequence_value_expands_in_order :
  forall pre post k v a b c,
    dict_wf (pre ++ (k, v) :: post) ->
    sequence_of v [a; b; c] ->
    params_tuple (pre ++ (k, v) :: post)
    = params_tuple pre ++ [(k, a); (k, b); (k, c)] ++ params_tuple post
    /\ with_key k (params_tuple (pre ++ (k, v) :: post)) = [(k, a); (k, b); (k, c)]
    /\ query_pairs (__encode_parameters (pre ++ (k, v) :: post))
       = query_pairs (__encode_parameters pre)
         ++ [(quote_plus k, quote_value a); (quote_plus k, quote_value b);
             (quote_plus k, quote_value c)]
         ++ query_pairs (__encode_parameters post)
    /\ with_key (quote_plus k) (query_pairs (__encode_parameters (pre ++ (k, v) :: post)))
       = [(quote_plus k, quote_value a); (quote_plus k, quote_value b);
          (quote_plus k, quote_value c)]
    /\ __encode_parameters [(k, v)]
       = (quote_plus k ++ "=" ++ quote_value a ++ "&"
          ++ quote_plus k ++ "=" ++ quote_value b ++ "&"
          ++ quote_plus k ++ "=" ++ quote_value c)%string.
Proof.
  intros * Hwf Hv.
  destruct (sequence_pairs pre post k v [a; b; c] Hwf Hv) as [E F].
  cbn [map] in E, F.
  split; [exact E|]. split; [exact F|].
  unfold __encode_parameters. rewrite !query_pairs_urlencode.
  split; [|split].
  - rewrite E, !map_app. reflexivity.
  - rewrite with_key_quoted, F. reflexivity.
  - destruct Hv as [-> | ->];
      unfold urlencode, params_tuple;
      cbn [fold_left encode_step app map join_amp];
      unfold encode_pair; cbn [fst snd];
      now rewrite !append_assoc.
Qed.

(** C7: replacing byte strings of a mapping by the text they decode to, at
    the top or inside lists and tuples, leaves the output of
    __encode_parameters unchanged, hence also the URL built from it, and a
    GET call behaves the same with either mapping. *)
Theorem bytes_encode_like_their_text :
  forall p p',
    params_as_text p p' ->
    __encode_parameters p = __encode_parameters p'
    /\ (forall url, __build_url url p = __build_url url p')
    /\ (forall net url method timeout headers w,
           eq_nocase method "GET" = true ->
           request_url net url method timeout (Some p) headers w
           = request_url net url method timeout (Some p') headers w).
Proof.
  intros p p' H.
  split; [now apply params_as_text_encode|].
  split; [intros; now apply params_as_text_build_url|].
  intros * Hm.
  destruct (get_session_returns w) as (s & Hs & _).
  rewrite !(request_url_shape _ _ _ _ _ _ _ _ _ Hs). cbn [params_or_empty].
  pose proof (decode_params_agree p p' H) as Hd.
  destruct (decode_params p) as [ps|]; destruct (decode_params p') as [ps'|];
    try contradiction; [|reflexivity].
  destruct Hd as [H1 H2].
  rewrite !(planned_get _ _ _ _ _ _ Hm).
  rewrite <- (params_as_text_build_url url p ps H1).
  rewrite <- (params_as_text_build_url url p' ps' H2).
  rewrite <- (params_as_text_build_url_error p ps H1).
  rewrite <- (params_as_text_build_url_error p' ps' H2).
  rewrite (params_as_text_build_url url p p' H).
  rewrite (params_as_text_build_url_error p p' H). reflexivity.
Qed.

(** C8 (as amended): a GET call whose parameter mapping is empty or left
    out sends its request to the URL as given, with no question mark
    added. *)
Theorem empty_mapping_url_unmodified :
  forall net url method timeout params headers w,
    eq_nocase method "GET" = true ->
    params_or_empty params = [] ->
    map target
      (transports
         (events_of_call w (snd (request_url net url method timeout params headers w))))
    = [url].
Proof.
  intros * Hm He.
  destruct (get_session_returns w) as (s & Hs & _).
  rewrite (get_request_sent _ _ _ _ _ _ _ _ _ Hs Hm); rewrite He; reflexivity.
Qed.

(** ** The shared session *)

(** One call, made when the accessor would return [s]: afterwards [s] is
    the stored session, and what was sent went through [s]. *)
Lemma perform_session (w : World) (c : call) (s : Session) :
  fst (_get_session w) = Return s ->
  cls_session (perform w c) = Some s
  /\ next_object (perform w c) = next_object (snd (_get_session w))
  /\ exists l, trace (perform w c) = trace w ++ l
               /\ Forall (fun q => via q = s) (transports l).
Proof.
  intros H.
  destruct (get_session_returns w) as (s' & Hs & Hc & Ht).
  rewrite Hs in H. cbn in H. injection H as ->.
  destruct c as [|net url method timeout params headers]; cbn [perform].
  - repeat split; auto. exists []. rewrite app_nil_r. split; [auto|constructor].
  - destruct (request_url_world net url method timeout params headers w s _ Hs)
      as (Hc' & Hn & l & Hl & Hsent).
    repeat split; auto. exists l. split; [exact Hl|].
    rewrite Hsent.
    destruct (decode_params (params_or_empty params)) as [ps|]; [|constructor].
    destruct (planned s url (upper method) timeout ps headers) as [q|e] eqn:Hp;
      [|constructor].
    constructor; [|constructor]. exact (planned_via _ _ _ _ _ _ _ Hp).
Qed.

Lemma run_session (calls : list call) (w : World) (s : Session) :
  fst (_get_session w) = Return s ->
  fst (_get_session (run calls w)) = Return s
  /\ exists l, trace (run calls w) = trace w ++ l
               /\ Forall (fun q => via q = s) (transports l).
Proof.
  revert w. induction calls as [|c calls IH]; intros w H; cbn [run fold_left].
  - split; [exact H|]. exists []. rewrite app_nil_r. split; [auto|constructor].
  - destruct (perform_session w c s H) as (Hc & _ & l & Hl & Hv).
    assert (H' : fst (_get_session (perform w c)) = Return s)
      by now rewrite (get_session_existing _ _ Hc).
    destruct (IH _ H') as (Hr & l' & Hl' & Hv').
    split; [exact Hr|]. exists (l ++ l'). split.
    + unfold run in Hl'. rewrite Hl', Hl, app_assoc. reflexivity.
    + rewrite transports_app. apply Forall_app. auto.
Qed.

Lemma run_allocates_nothing (calls : list call) (w : World) (s : Session) :
  cls_session w = Some s ->
  cls_session (run calls w) = Some s /\ next_object (run calls w) = next_object w.
Proof.
  revert w. induction calls as [|c calls IH]; intros w H; cbn [run fold_left]; [auto|].
  pose proof (get_session_existing w s H) as Hs.
  destruct (perform_session w c s) as (Hc & Hn & _); [now rewrite Hs|].
  rewrite Hs in Hn. cbn in Hn.
  destruct (IH _ Hc) as [Hc' Hn']. unfold run in *. split; [exact Hc'|congruence].
Qed.

(** C9: no session exists in a fresh process; the first call of the
    accessor creates one whose http:// and https:// prefixes are both
    mounted on one adapter with 100 pool connections, pool size 100, 3
    retries and blocking; after that, whatever series of calls is made, the
    accessor returns that same session and creates nothing, and every
    request handed to the transport goes through it. *)
Theorem session_is_lazy_singleton :
  cls_session fresh_process = None
  /\ (forall w, cls_session w = None ->
        exists s a,
          fst (_get_session w) = Return s
          /\ cls_session (snd (_get_session w)) = Some s
          /\ adapters s = [("https://", a); ("http://", a)]
          /\ pool_connections a = 100%Z /\ pool_maxsize a = 100%Z
          /\ max_retries a = 3%Z /\ pool_block a = true)
  /\ (forall w s calls,
        fst (_get_session w) = Return s ->
        _get_session (run calls (snd (_get_session w)))
        = (Return s, run calls (snd (_get_session w)))
        /\ next_object (run calls (snd (_get_session w)))
           = next_object (snd (_get_session w)))
  /\ (forall w s calls q,
        fst (_get_session w) = Return s ->
        In q (transports (events_of_call w (run calls w))) ->
        via q = s).
Proof.
  split; [reflexivity|]. split; [|split].
  - intros w H. unfold _get_session. rewrite H. cbn.
    do 2 eexists. repeat split.
  - intros w s calls H.
    destruct (get_session_returns w) as (s' & Hs & Hc & _).
    rewrite Hs in H. cbn in H. injection H as ->.
    destruct (run_allocates_nothing calls _ s Hc) as [Hc' Hn].
    split; [now apply get_session_existing|exact Hn].
  - intros w s calls q H Hin.
    destruct (run_session calls w s H) as (_ & l & Hl & Hv).
    rewrite (events_of_call_log w _ l Hl) in Hin.
    rewrite Forall_forall in Hv. now apply Hv.
Qed.

(* ================================================================= *)
(** * Further properties *)

(** ** What a call does to the outside *)

Section Effects.

Variables (net : network) (url method : string) (timeout : Z).
Variables (params : option params_t) (headers : option headers_t).
Variable w : World.

Local Abbreviation the_call := (request_url net url method timeout params headers w).
Local Abbreviation events := (events_of_call w (snd the_call)).
Local Abbreviation failure_message :=
  ("[URLRequest] Falha na requisição " ++ upper method ++ " " ++ url)%string.

(** The events of a call, in order. *)
Lemma call_events s w1 :
  _get_session w = (Return s, w1) ->
  events
  = match decode_params (params_or_empty params) with
    | None => []
    | Some ps =>
        match planned s url (upper method) timeout ps headers with
        | Raise _ => []
        | Return q =>
            EvTransport q
            :: match outcome (net q) with
               | Return r =>
                   if ok r
                   then match decode_utf8 (content r) with
                        | Some text => [EvJsonLoads text]
                        | None => []
                        end
                   else []
               | Raise (RequestException _) => [EvLogException failure_message]
               | Raise _ => []
               end
        end
    end.
Proof.
  intros Hs.
  assert (Ht : trace w1 = trace w).
  { destruct (get_session_returns w) as (s' & Hs' & _ & Ht). now rewrite Hs in Ht. }
  rewrite (request_url_shape _ _ _ _ _ _ _ _ _ Hs).
  destruct (decode_params (params_or_empty params)) as [ps|].
  2:{ apply events_of_call_log. cbn. now rewrite app_nil_r. }
  destruct (planned s url (upper method) timeout ps headers) as [q|e].
  2:{ apply events_of_call_log. cbn. now rewrite app_nil_r. }
  apply events_of_call_log.
  destruct (outcome (net q)) as [r|e]; cbn [after_send].
  - rewrite interpret_cases.
    destruct (ok r); cbn [negb].
    + destruct (decode_utf8 (content r)) as [text|]; cbn; now rewrite Ht, <- ?app_assoc.
    + cbn. now rewrite Ht.
  - destruct e; cbn; now rewrite Ht, <- ?app_assoc.
Qed.

(** The result of a call, from the plan and the answer. *)
Lemma call_result s w1 :
  _get_session w = (Return s, w1) ->
  fst the_call
  = match decode_params (params_or_empty params) with
    | None => Raise UnicodeDecodeError
    | Some ps =>
        match planned s url (upper method) timeout ps headers with
        | Raise e => Raise e
        | Return q => fst (after_send method url (outcome (net q)) w)
        end
    end.
Proof.
  intros Hs. rewrite (request_url_shape _ _ _ _ _ _ _ _ _ Hs).
  destruct (decode_params (params_or_empty params)) as [ps|]; [|reflexivity].
  destruct (planned s url (upper method) timeout ps headers) as [q|e]; [|reflexivity].
  apply after_send_indep.
Qed.

End Effects.

(** X1: when the transport fails, request_url raises that failure again
    after logging one message, made of the upper-cased method and the URL
    as the caller gave it; nothing else is sent and the JSON decoder is not
    called. *)
Theorem transport_failure_logged_and_raised :
  forall net url method timeout params headers w q e,
    In q (transports
            (events_of_call w (snd (request_url net url method timeout params headers w)))) ->
    net q = Failed e ->
    fst (request_url net url method timeout params headers w) = Raise (RequestException e)
    /\ events_of_call w (snd (request_url net url method timeout params headers w))
       = [EvTransport q;
          EvLogException ("[URLRequest] Falha na requisição " ++ upper method ++ " " ++ url)].
Proof.
  intros * Hin Hq.
  destruct (sent_shape _ _ _ _ _ _ _ _ Hin) as (s & w1 & ps & _ & Ht & _ & _ & _ & ->).
  rewrite Hq. cbn. split; [reflexivity|].
  apply events_of_call_log. cbn. now rewrite Ht, <- app_assoc.
Qed.

(** X2: a call reaches the outside in one of five ways and no other:
    no session method is called; one is called and raises a
    RequestException, then one log entry is written; one is called and
    raises something else, and nothing is logged; one is called and returns
    a response that is not ok or whose body is not UTF-8; one is called and
    returns an ok response, then the JSON decoder is called once, on the
    decoded body.  So no call sends twice, and nothing is logged or parsed
    before a session method was called. *)
Theorem call_reaches_outside_once :
  forall net url method timeout params headers w,
    events_of_call w (snd (request_url net url method timeout params headers w)) = []
    \/ (exists q e,
           outcome (net q) = Raise (RequestException e)
           /\ events_of_call w (snd (request_url net url method timeout params headers w))
              = [EvTransport q;
                 EvLogException
                   ("[URLRequest] Falha na requisição " ++ upper method ++ " " ++ url)])
    \/ (exists q e,
           net q = Raised e
           /\ is_request_exception e = false
           /\ events_of_call w (snd (request_url net url method timeout params headers w))
              = [EvTransport q])
    \/ (exists q r,
           net q = Responded r
           /\ (ok r = false \/ decode_utf8 (content r) = None)
           /\ events_of_call w (snd (request_url net url method timeout params headers w))
              = [EvTransport q])
    \/ (exists q r text,
           net q = Responded r
           /\ ok r = true
           /\ decode_utf8 (content r) = Some text
           /\ events_of_call w (snd (request_url net url method timeout params headers w))
              = [EvTransport q; EvJsonLoads text]).
Proof.
  intros.
  destruct (get_session_returns w) as (s & Hs & _).
  rewrite (call_events _ _ _ _ _ _ _ _ _ Hs).
  destruct (decode_params (params_or_empty params)) as [ps|]; [|now left].
  destruct (planned s url (upper method) timeout ps headers) as [q|]; [|now left].
  destruct (net q) as [r|e|e] eqn:Hq; cbn [outcome].
  - destruct (ok r) eqn:Hok.
    + destruct (decode_utf8 (content r)) as [text|] eqn:Hd.
      * do 4 right. exists q, r, text. auto.
      * do 3 right. left. exists q, r. auto.
    + do 3 right. left. exists q, r. auto.
  - right. left. exists q, e. rewrite Hq. auto.
  - destruct (is_request_exception e) eqn:He.
    + destruct e; try discriminate He. right. left. exists q, e. rewrite Hq. auto.
    + do 2 right. left. exists q, e. destruct e; try discriminate He; auto.
Qed.

(** X3: how a call ends, by how far it got.  A call that called no session
    method raised the UnicodeDecodeError of a parameter, the invalid-method
    ValueError, or what urlencode raises for a GET: UnicodeEncodeError, or
    the ValueError of the digit limit.  A call whose session method raised
    ends with that exception, whatever it is.  A call that got a response
    ends with a value, with ApiError, with the UnicodeDecodeError of the
    body, or with what the JSON decoder raises at a limit of the
    interpreter, RecursionError or the ValueError of the digit limit; the
    JSONDecodeError of the decoder never leaves request_url. *)
Theorem call_ends_by_stage :
  forall net url method timeout params headers w,
    (transports
       (events_of_call w (snd (request_url net url method timeout params headers w))) = [] ->
     exists e, fst (request_url net url method timeout params headers w) = Raise e
               /\ error_before_sending e = true)
    /\ (forall q e,
          In q (transports
                  (events_of_call w
                     (snd (request_url net url method timeout params headers w)))) ->
          net q = Raised e ->
          fst (request_url net url method timeout params headers w) = Raise e)
    /\ (forall resp,
          answered_with net w
            (snd (request_url net url method timeout params headers w)) resp ->
          result_of_answer (fst (request_url net url method timeout params headers w))
          = true).
Proof.
  intros. split; [|split].
  - destruct (get_session_returns w) as (s & Hs & _).
    rewrite (sent_requests _ _ _ _ _ _ _ _ _ Hs), (call_result _ _ _ _ _ _ _ _ _ Hs).
    destruct (decode_params (params_or_empty params)) as [ps|]; [|intros _; eauto].
    destruct (planned s url (upper method) timeout ps headers) as [q|e] eqn:Hp;
      [discriminate|].
    intros _. exists e. split; [reflexivity|].
    unfold planned in Hp.
    destruct (String.eqb (upper method) "GET").
    { destruct (build_url_error ps) as [e'|] eqn:He; [|discriminate].
      injection Hp as <-.
      destruct (build_url_error_exn _ _ He) as [-> | ->]; [reflexivity|].
      cbn [error_before_sending]. unfold str_of_int_message.
      rewrite prefix_app. apply orb_true_r. }
    repeat match type of Hp with
           | context [String.eqb (upper method) ?m] =>
               destruct (String.eqb (upper method) m); [discriminate|]
           end.
    assert (e = ValueError ("Método HTTP inválido: " ++ upper method)) as -> by congruence.
    cbn [error_before_sending]. now rewrite prefix_app.
  - intros q e Hin Hq.
    destruct (sent_shape _ _ _ _ _ _ _ _ Hin) as (s & w1 & ps & _ & _ & _ & _ & _ & ->).
    rewrite Hq. destruct e; reflexivity.
  - intros resp Ha.
    destruct (answered_shape _ _ _ _ _ _ _ _ Ha)
      as (s & w1 & ps & q & _ & _ & _ & _ & _ & ->).
    rewrite interpret_cases. destruct (negb (ok resp)); [reflexivity|].
    destruct (decode_utf8 (content resp)) as [text|]; [|reflexivity].
    apply text_result_kind.
Qed.

(** ** The request that is sent *)

Lemma eq_nocase_upper (t method : string) :
  upper t = t -> eq_nocase method t = true -> upper method = t.
Proof. unfold eq_nocase. intros ->. apply String.eqb_eq. Qed.

(** X4: a call with a supported method, parameters that decode and, for
    GET, a mapping that urlencode takes, calls exactly one session method:
    of the shared session, the one the caller named (in any casing), with
    the caller's headers and timeout.  Only GET changes the URL; POST
    passes the decoded mapping as data, PUT passes it as params, GET and
    DELETE pass neither.  A GET call whose mapping urlencode refuses ends
    with what urlencode raised, and no session method is called. *)
Theorem supported_call_sends_one_request :
  forall net url method timeout params headers w,
    bytes_values_valid (params_or_empty params) = true ->
    (supported_method method = true ->
     (eq_nocase method "GET" = true -> build_url_error (params_or_empty params) = None) ->
     exists q,
       transports
         (events_of_call w (snd (request_url net url method timeout params headers w)))
       = [q]
       /\ eq_nocase method (verb_name (method_of q)) = true
       /\ fst (_get_session w) = Return (via q)
       /\ req_headers q = headers
       /\ req_timeout q = timeout
       /\ match method_of q with
          | GET => target q = __build_url url (params_or_empty params)
                   /\ query q = None /\ data q = None
          | POST => target q = url
                    /\ query q = None
                    /\ data q = decode_params (params_or_empty params)
          | DELETE => target q = url /\ query q = None /\ data q = None
          | PUT => target q = url
                   /\ query q = decode_params (params_or_empty params)
                   /\ data q = None
          end)
    /\ (forall e,
          eq_nocase method "GET" = true ->
          build_url_error (params_or_empty params) = Some e ->
          transports
            (events_of_call w (snd (request_url net url method timeout params headers w)))
          = []
          /\ fst (request_url net url method timeout params headers w) = Raise e).
Proof.
  intros * Hv.
  destruct (get_session_returns w) as (s & Hs & _).
  rewrite (sent_requests _ _ _ _ _ _ _ _ _ Hs), (call_result _ _ _ _ _ _ _ _ _ Hs), Hs.
  destruct (decode_params (params_or_empty params)) as [ps|] eqn:Hd.
  2:{ apply decode_params_none in Hd. congruence. }
  split.
  - intros Hm He.
    destruct (eq_nocase method "GET") eqn:E1.
    { rewrite (get_plan _ _ _ _ _ _ _ E1 Hd), (He eq_refl).
      eexists. split; [reflexivity|]. cbn. rewrite E1. auto 10. }
    unfold planned, supported_method in *.
    rewrite !upper_eq_nocase by reflexivity. rewrite E1 in *.
    destruct (eq_nocase method "POST") eqn:E2.
    { eexists. split; [reflexivity|]. cbn. rewrite E2. auto 10. }
    destruct (eq_nocase method "DELETE") eqn:E3.
    { eexists. split; [reflexivity|]. cbn. rewrite E3. auto 10. }
    destruct (eq_nocase method "PUT") eqn:E4.
    { eexists. split; [reflexivity|]. cbn. rewrite E4. auto 10. }
    discriminate Hm.
  - intros e Hm He. rewrite (get_plan _ _ _ _ _ _ _ Hm Hd), He. split; reflexivity.
Qed.

(** X5: parameters are decoded before the method is looked at and whether
    or not the method uses them.  A mapping with a byte-string value at its
    top that is not UTF-8 makes every call raise UnicodeDecodeError with
    nothing sent, logged or parsed, a DELETE call too; and a DELETE call
    whose mappings decode does the same whatever the mapping holds. *)
Theorem parameters_decoded_even_when_unused :
  (forall net url method timeout params headers w,
      bytes_values_valid (params_or_empty params) = false ->
      fst (request_url net url method timeout params headers w) = Raise UnicodeDecodeError
      /\ events_of_call w (snd (request_url net url method timeout params headers w)) = [])
  /\ (forall net url method timeout params params' headers w,
      eq_nocase method "DELETE" = true ->
      bytes_values_valid (params_or_empty params) = true ->
      bytes_values_valid (params_or_empty params') = true ->
      request_url net url method timeout params headers w
      = request_url net url method timeout params' headers w).
Proof.
  split.
  - intros * Hv. apply decode_params_none in Hv.
    destruct (get_session_returns w) as (s & Hs & _).
    now rewrite (call_result _ _ _ _ _ _ _ _ _ Hs), (call_events _ _ _ _ _ _ _ _ _ Hs), Hv.
  - intros * Hm Hv Hv'.
    destruct (get_session_returns w) as (s & Hs & _).
    rewrite !(request_url_shape _ _ _ _ _ _ _ _ _ Hs).
    destruct (decode_params (params_or_empty params)) as [ps|] eqn:Hd.
    2:{ apply decode_params_none in Hd. congruence. }
    destruct (decode_params (params_or_empty params')) as [ps'|] eqn:Hd'.
    2:{ apply decode_params_none in Hd'. congruence. }
    rewrite (eq_nocase_upper "DELETE" method eq_refl Hm). reflexivity.
Qed.

Lemma decode_items_entries (p ps : params_t) :
  decode_items p = Some ps ->
  Forall2 decoded_entry p ps
  /\ existsb (fun kv => is_bytes (snd kv)) ps = false.
Proof.
  revert ps. induction p as [|[k v] r IH]; cbn; intros ps.
  - intros [= <-]. split; [constructor|reflexivity].
  - destruct (decode_value v) as [v'|] eqn:Ev; [|discriminate].
    destruct (decode_items r) as [r'|]; [|discriminate].
    intros [= <-]. destruct (IH r' eq_refl) as [IH1 IH2]. split.
    + constructor; [|exact IH1]. split; [reflexivity|]. cbn.
      destruct v as [[| |b| |]| |]; cbn in Ev; try (injection Ev as <-; now left).
      destruct (decode_utf8 b) as [t|] eqn:Hb; [|discriminate].
      injection Ev as <-. right. now exists b, t.
    + cbn. rewrite IH2.
      destruct v as [[| |b| |]| |]; cbn in Ev; try (injection Ev as <-; reflexivity).
      destruct (decode_utf8 b); [|discriminate]. injection Ev as <-. reflexivity.
Qed.

(** X6: when the decoding of lines 49-50 succeeds, the mapping keeps its
    keys in their order; each value is what it was, or the text of the byte
    string it was; no byte string is left at the top, while byte strings
    inside lists and tuples stay; and decoding the result again changes
    nothing. *)
Theorem decoding_keeps_the_mapping :
  forall p ps,
    decode_params p = Some ps ->
    Forall2 decoded_entry p ps
    /\ keys ps = keys p
    /\ existsb (fun kv => is_bytes (snd kv)) ps = false
    /\ (forall k v, In (k, v) p -> is_bytes v = false -> In (k, v) ps)
    /\ decode_params ps = Some ps.
Proof.
  intros p ps H.
  assert (E : Forall2 decoded_entry p ps
              /\ existsb (fun kv => is_bytes (snd kv)) ps = false).
  { unfold decode_params in H.
    destruct (existsb (fun kv => is_bytes (snd kv)) p) eqn:Hb.
    - now apply decode_items_entries.
    - injection H as <-. split; [|exact Hb].
      clear Hb. induction p; constructor; auto. split; [reflexivity|now left]. }
  destruct E as [F B]. split; [exact F|]. split; [|split; [exact B|split]].
  - unfold keys. clear -F. induction F as [|a b p ps [Hk _] _ IH]; cbn; [reflexivity|].
    now rewrite IH, Hk.
  - clear -F. induction F as [|a b p ps [Hk Hv] _ IH]; intros k v Hin Hnb; [contradiction|].
    destruct Hin as [->|Hin]; [|right; eauto].
    left. destruct b as [kb vb]. cbn in *. subst kb.
    destruct Hv as [->|(bs & t & -> & _)]; [reflexivity|discriminate].
  - unfold decode_params. now rewrite B.
Qed.

(** X7: after any call, also one that is rejected for its method or its
    parameters, the shared session exists: it is the one the accessor
    would have returned before the call, and the call allocated nothing
    beyond what the accessor allocates. *)
Theorem every_call_leaves_the_session :
  forall net url method timeout params headers w,
    exists s,
      fst (_get_session w) = Return s
      /\ cls_session (snd (request_url net url method timeout params headers w)) = Some s
      /\ next_object (snd (request_url net url method timeout params headers w))
         = next_object (snd (_get_session w)).
Proof.
  intros.
  destruct (get_session_returns w) as (s & Hs & _).
  destruct (request_url_world net url method timeout params headers w s _ Hs)
    as (Hc & Hn & _).
  exists s. rewrite Hs at 1. auto.
Qed.

(** ** The response and its interpretation *)



(** X9: the inspection of a list looks at its first element and at nothing
    else: the elements after the first never change its outcome, and when
    the first element is not a dict (a list that holds an error dict, say)
    nothing is raised. *)
Theorem inspection_stops_at_first_element :
  (forall first rest rest' w w',
      fst (_check_api_error (JList (first :: rest)) w)
      = fst (_check_api_error (JList (first :: rest')) w'))
  /\ (forall first rest w,
      (forall d, first <> JDict d) ->
      fst (_check_api_error (JList (first :: rest)) w) = Return tt).
Proof.
  split.
  - intros. unfold _check_api_error.
    destruct first; try reflexivity.
    destruct (is_str _ _ || dict_mem _ _); reflexivity.
  - intros first rest w H. unfold _check_api_error.
    destruct first; try reflexivity. now destruct (H d).
Qed.

(** X10: __parse_data treats text and bytes alike when the bytes are the
    UTF-8 form of the text; given text it never raises UnicodeDecodeError;
    given bytes that are not UTF-8 it raises UnicodeDecodeError before the
    JSON decoder is called, leaving the world as it was. *)
Theorem parse_data_text_or_bytes :
  (forall s w,
      utf8_valid (encode_utf8 s) = true ->
      __parse_data (AsBytes (encode_utf8 s)) w = __parse_data (AsStr s) w)
  /\ (forall s w, fst (__parse_data (AsStr s) w) <> Raise UnicodeDecodeError)
  /\ (forall b w,
      utf8_valid b = false ->
      __parse_data (AsBytes b) w = (Raise UnicodeDecodeError, w)).
Proof.
  split; [|split].
  - intros s w H. rewrite parse_data_bytes, parse_data_str.
    unfold decode_utf8. rewrite H. unfold encode_utf8.
    now rewrite string_of_list_byte_of_string.
  - intros s w. rewrite parse_data_str. cbn [fst]. intros H.
    destruct (text_result_raises _ _ H) as [[[E|[E|[n E]]] _]|[a E]]; discriminate E.
  - intros b w H. rewrite parse_data_bytes. unfold decode_utf8. now rewrite H.
Qed.

(** X11: a body that json.loads rejects with JSONDecodeError and a body
    that is the JSON string of the same text give the same result: what
    request_url returns for text is the value it returns for a JSON string,
    and the caller cannot tell the two apart. *)
Theorem text_and_json_string_alike :
  forall net url method timeout params headers w
         net' url' method' timeout' params' headers' w' r r' text,
    answered_with net w (snd (request_url net url method timeout params headers w)) r ->
    answered_with net' w'
      (snd (request_url net' url' method' timeout' params' headers' w')) r' ->
    ok r = true -> ok r' = true ->
    decode_utf8 (content r) = Some text ->
    json_decode limits text = Raise JSONDecodeError ->
    body_json (content r') = Some (JStr text) ->
    fst (request_url net url method timeout params headers w) = Return (JStr text)
    /\ fst (request_url net' url' method' timeout' params' headers' w')
       = Return (JStr text).
Proof.
  intros * Ha Ha' Hok Hok' Hd Hj Hb.
  split; [exact (answered_text _ _ _ _ _ _ _ _ _ Ha Hok Hd Hj)|].
  destruct (answered_shape _ _ _ _ _ _ _ _ Ha')
    as (s' & w1' & ps' & q' & _ & _ & _ & _ & _ & ->).
  rewrite interpret_cases, Hok'. cbn [negb].
  unfold body_json in Hb.
  destruct (decode_utf8 (content r')) as [t'|]; [|discriminate].
  destruct (json_decode limits t') as [v|e] eqn:Hj'; [|discriminate].
  injection Hb as ->. cbn [fst].
  now rewrite (text_result_value t' (JStr text) fresh_process Hj').
Qed.

(** ** More on the encoded parameters *)

Lemma unquote_quote_value (v : scalar) : unquote_plus (quote_value v) = value_bytes v.
Proof. destruct v; apply unquote_quote. Qed.

(** X12: the encoded string can be read back: cut at the ampersands, each
    piece at its first equals sign, and unquoted, it gives the pairs of
    the loop again, each key as the bytes of its text and each value as the
    bytes that were quoted: the byte string itself, or the text of
    str(value). *)
Theorem encoded_pairs_read_back :
  forall p,
    map (fun kv => (unquote_plus (fst kv), unquote_plus (snd kv)))
        (query_pairs (__encode_parameters p))
    = map (fun kv => (encode_utf8 (fst kv), value_bytes (snd kv))) (params_tuple p).
Proof.
  intros p. unfold __encode_parameters.
  rewrite query_pairs_urlencode, map_map. apply map_ext. intros [k v].
  cbn [quoted_pair fst snd]. unfold quote_plus.
  now rewrite unquote_quote, unquote_quote_value.
Qed.

Lemma all_chars_app (p : ascii -> bool) (s t : string) :
  all_chars p (s ++ t) = all_chars p s && all_chars p t.
Proof. induction s as [|c s IH]; cbn; [reflexivity|]. now rewrite IH, andb_assoc. Qed.

Lemma quote_byte_chars (b : byte) : all_chars is_query_char (quote_byte b) = true.
Proof. destruct b; reflexivity. Qed.

Lemma quote_from_bytes_chars (bs : bytes) :
  all_chars is_query_char (quote_from_bytes bs) = true.
Proof.
  induction bs as [|b r IH]; cbn; [reflexivity|].
  now rewrite all_chars_app, quote_byte_chars, IH.
Qed.

Lemma encode_pair_chars (kv : string * scalar) :
  all_chars is_query_char (encode_pair kv) = true.
Proof.
  unfold encode_pair, quote_plus. rewrite !all_chars_app, quote_from_bytes_chars.
  destruct (snd kv); cbn [quote_value]; unfold quote_plus;
    now rewrite quote_from_bytes_chars.
Qed.

Lemma join_amp_chars (l : list string) :
  Forall (fun s => all_chars is_query_char s = true) l ->
  all_chars is_query_char (join_amp l) = true.
Proof.
  induction 1 as [|s r Hs Hr IH]; [reflexivity|].
  destruct r as [|s' r']; [exact Hs|].
  change (join_amp (s :: s' :: r')) with (s ++ String "&" (join_amp (s' :: r')))%string.
  rewrite all_chars_app, Hs. cbn [all_chars]. now rewrite IH.
Qed.

(** X13: the encoded string is made of ASCII letters and digits, the marks
    _ . - ~ and the four signs percent, plus, equals and ampersand, whatever
    the keys and values hold: no space, question mark, hash or slash, and no
    byte outside ASCII, is ever written. *)
Theorem encoded_string_is_plain :
  forall p, all_chars is_query_char (__encode_parameters p) = true.
Proof.
  intros p. unfold __encode_parameters, urlencode. apply join_amp_chars.
  apply Forall_map, Forall_forall. intros. apply encode_pair_chars.
Qed.

Lemma expand_nothing (k : string) (v : pvalue) :
  expand (k, v) = [] <-> adds_nothing v = true.
Proof.
  unfold expand, encode_step.
  destruct v as [[| | | |]|[|x l]|[|x l]]; cbn; split; intros H;
    (reflexivity || discriminate).
Qed.

Lemma params_tuple_nothing (p : params_t) :
  params_tuple p = [] <-> forallb (fun kv => adds_nothing (snd kv)) p = true.
Proof.
  induction p as [|[k v] r IH]; [split; reflexivity|].
  rewrite params_tuple_cons. cbn [forallb snd].
  rewrite andb_true_iff, <- IH, <- (expand_nothing k v). split.
  - intros H. now apply app_eq_nil in H.
  - intros [-> ->]. reflexivity.
Qed.

(** X14: the parameters encode to the empty string exactly when every
    value of the mapping is None or a list or tuple without elements; any
    other value, the empty text included, writes at least its key and an
    equals sign. *)
Theorem encoding_empty_iff :
  forall p,
    __encode_parameters p = EmptyString
    <-> forallb (fun kv => adds_nothing (snd kv)) p = true.
Proof.
  intros p. unfold __encode_parameters.
  rewrite urlencode_empty_iff. apply params_tuple_nothing.
Qed.

Lemma join_amp_empty (l : list string) :
  Forall (fun s => s <> EmptyString) l ->
  join_amp l = EmptyString -> l = [].
Proof.
  intros H E. destruct l as [|s r]; [reflexivity|].
  inversion H as [|? ? Hs _]; subst. now destruct (join_amp_nonempty s r Hs).
Qed.

Lemma join_query_nonempty_l (a b : string) :
  a <> EmptyString -> b <> EmptyString -> join_query a b = (a ++ "&" ++ b)%string.
Proof. destruct a, b; cbn; congruence. Qed.

Lemma join_amp_app (l l' : list string) :
  Forall (fun s => s <> EmptyString) l ->
  Forall (fun s => s <> EmptyString) l' ->
  join_amp (l ++ l') = join_query (join_amp l) (join_amp l').
Proof.
  intros Hl Hl'. induction Hl as [|s r Hs Hr IH]; [reflexivity|].
  destruct l' as [|t r'].
  { rewrite app_nil_r. change (join_amp []) with EmptyString.
    now destruct (join_amp (s :: r)). }
  assert (Ht : join_amp (t :: r') <> EmptyString).
  { inversion Hl'; subst. now apply join_amp_nonempty. }
  destruct r as [|s' r0].
  - change (join_amp ([s] ++ t :: r')) with (s ++ String "&" (join_amp (t :: r')))%string.
    cbn [join_amp]. now rewrite join_query_nonempty_l.
  - change (join_amp ((s :: s' :: r0) ++ t :: r'))
      with (s ++ String "&" (join_amp ((s' :: r0) ++ t :: r')))%string.
    rewrite IH.
    assert (Hj : join_amp (s' :: r0) <> EmptyString).
    { inversion Hr; subst. now apply join_amp_nonempty. }
    rewrite !join_query_nonempty_l; auto.
    + change (join_amp (s :: s' :: r0)) with (s ++ String "&" (join_amp (s' :: r0)))%string.
      rewrite !append_assoc. reflexivity.
    + now apply join_amp_nonempty.
Qed.

(** X15: encoding goes entry by entry: the encoding of two mappings put
    one after the other is the two encodings joined by an ampersand, or
    just the one that is not empty; so adding an entry never changes what
    the entries before it wrote. *)
Theorem encoding_of_appended_mappings :
  forall p p',
    __encode_parameters (p ++ p')
    = join_query (__encode_parameters p) (__encode_parameters p').
Proof.
  intros p p'. unfold __encode_parameters, urlencode.
  rewrite params_tuple_app, map_app. apply join_amp_app;
    apply Forall_map, Forall_forall; intros; apply encode_pair_nonempty.
Qed.

Lemma append_self_empty (a s : string) : (a ++ s)%string = a -> s = EmptyString.
Proof.
  induction a as [|c a IH]; cbn; [auto|]. intros [= H]. auto.
Qed.

(** X16: a GET request goes to the URL as given exactly when the mapping
    is empty or left out; with any entry in the mapping it goes to the URL
    followed by a question mark and the encoded parameters, whether or not
    the URL already holds a question mark. *)
Theorem get_url_unmodified_iff :
  forall net url method timeout params headers w q,
    eq_nocase method "GET" = true ->
    In q (transports
            (events_of_call w (snd (request_url net url method timeout params headers w)))) ->
    (target q = url <-> params_or_empty params = [])
    /\ (params_or_empty params <> [] ->
        target q = (url ++ "?" ++ __encode_parameters (params_or_empty params))%string).
Proof.
  intros * Hm Hin.
  destruct (get_request_target _ _ _ _ _ _ _ _ Hm Hin) as [_ ->].
  destruct (params_or_empty params) as [|kv r]; cbn [__build_url].
  - split; [tauto|congruence].
  - split; [|reflexivity]. split; [|discriminate].
    intros H. apply append_self_empty in H. discriminate H.
Qed.

End Interpreter.

(* ================================================================= *)
(** * The properties on concrete calls *)

(** Calls in an interpreter with the default limits, [default_limits], and
    some with [tight_limits]. *)

(** ** Examples of the library functions *)

Example encode_example :
  __encode_parameters
    [("title", Scalar (SStr "one piece")); ("limit", Scalar (SInt 10));
     ("ids[]", PyList [SStr "a/b"; SBytes [x63; xc3; xa9]]); ("x", Scalar SNone)]
  = "title=one+piece&limit=10&ids%5B%5D=a%2Fb&ids%5B%5D=c%C3%A9".
Proof. reflexivity. Qed.

Example loads_error_payload :
  json_decode default_limits (quoted "{'result':'error','errors':['bad id']}")
  = Return (JDict [("result", JStr "error"); ("errors", JList [JStr "bad id"])]).
Proof. reflexivity. Qed.

Example loads_nested :
  json_decode default_limits
    (quoted " [ {'a': [1, -2, 3.5e2, true, null], 'a': 'x\u00e9\n'}, [] ] ")
  = Return (JList [JDict [("a", JStr (String "x" (String "195" (String "169" (String "010" EmptyString)))))];
                   JList []]).
Proof. reflexivity. Qed.

Example loads_rejects :
  map (json_decode default_limits)
    ["pong"; EmptyString; "[1,]"; "01"; "{} x"; quoted "{'a' 1}"; "1."; "[1 2]"; quoted "'abc"]
  = map (fun _ => Raise JSONDecodeError) (seq 0 9).
Proof. reflexivity. Qed.

(** Six levels of the stack: six lists fit and a seventh does not; a
    constant takes a level of its own; and the decoder needs three levels to
    report ill-formed text from inside a list. *)
Example loads_deep :
  map (json_decode tight_limits)
    ["[[[[[[1]]]]]]"; nested_body; "[[[[[[NaN]]]]]]"; "[[[[[NaN]]]]]";
     "[[[1 2"; "[[[[1 2"; "[[[[[["; "[[[[[[["]
  = [Return (JList [JList [JList [JList [JList [JList [JInt 1]]]]]]);
     Raise RecursionError;
     Raise RecursionError;
     Return (JList [JList [JList [JList [JList [JFloat "NaN"]]]]]);
     Raise JSONDecodeError;
     Raise RecursionError;
     Raise JSONDecodeError;
     Raise RecursionError].
Proof. vm_compute. reflexivity. Qed.

(** The digit limit: an [int] of 640 digits is read and one of 641 is not,
    whatever follows it in the atom; a [float] has no limit; and the digits
    are not counted where no value can begin. *)
Example loads_long_numbers :
  map (fun text => match json_decode tight_limits text with
                   | Return (JInt _) => "int"
                   | Return _ => "other"
                   | Raise (ValueError _) => "ValueError"
                   | Raise JSONDecodeError => "JSONDecodeError"
                   | Raise _ => "error"
                   end)
    [sevens 640; sevens 641; ("-" ++ sevens 641)%string; (sevens 641 ++ "x")%string;
     (sevens 641 ++ ".5")%string; ("[1 " ++ sevens 641)%string;
     ("0" ++ sevens 641)%string]
  = ["int"; "ValueError"; "ValueError"; "ValueError";
     "other"; "JSONDecodeError"; "JSONDecodeError"].
Proof. vm_compute. reflexivity. Qed.

Example loads_long_number_message :
  json_decode tight_limits (sevens 641)
  = Raise (ValueError
             ("Exceeds the limit (640 digits) for integer string conversion: "
              ++ "value has 641 digits; "
              ++ "use sys.set_int_max_str_digits() to increase the limit")%string).
Proof. vm_compute. reflexivity. Qed.

(** What [urlencode] raises: the first error in the order of the pairs, the
    key before the value; bytes are never encoded, so they never fail. *)
Example build_url_errors :
  map (build_url_error tight_limits)
    [[("n", Scalar (SInt (10 ^ 640 - 1)))];
     [("n", Scalar (SInt (10 ^ 640)))];
     [("n", Scalar (SInt (- 10 ^ 640)))];
     [("k", Scalar (SStr (string_of_list_byte [xed; xa0; x80])))];
     [("k", Scalar (SBytes [xff]))];
     [(string_of_list_byte [xed; xa0; x80], Scalar (SInt (10 ^ 640)))];
     [("k", PyList [SInt (10 ^ 640); SStr (string_of_list_byte [xed; xa0; x80])])];
     [("k", Scalar SNone); ("n", Scalar (SInt 7))]]
  = [None;
     Some (ValueError (str_of_int_message 640));
     Some (ValueError (str_of_int_message 640));
     Some UnicodeEncodeError;
     None;
     Some UnicodeEncodeError;
     Some (ValueError (str_of_int_message 640));
     None].
Proof. vm_compute. reflexivity. Qed.

Example utf8_examples :
  map decode_utf8 [[x63; xc3; xa9]; [xe2; x82; xac]; [xf0; x9f; x98; x80];
                   [xff]; [xc3]; [xc0; x80]; [xed; xa0; x80]; [xf4; x90; x80; x80]; [x80]]
  = [Some (string_of_list_byte [x63; xc3; xa9]);
     Some (string_of_list_byte [xe2; x82; xac]);
     Some (string_of_list_byte [xf0; x9f; x98; x80]);
     None; None; None; None; None; None].
Proof. reflexivity. Qed.

Example mount_example :
  map fst (adapters (mount "https://api.mangadex.org/" (default_adapter 9) (new_session 0)))
  = ["https://api.mangadex.org/"; "https://"; "http://"].
Proof. reflexivity. Qed.

(** ** The claims *)

Lemma embedded_error_raises_ApiError_witness :
  fst (request_url default_limits (always (response 201 (quoted "[{'error': 1}, 2]")))
         api_url "post" 10 (Some [("title", Scalar (SStr "x"))]) None fresh_process)
  = Raise (ApiError (OfValue (JStr "Erro desconhecido")))
  /\ fst (request_url default_limits (always (response 200 error_body))
            api_url "GET" 10 None None fresh_process)
     = Raise (ApiError (OfValue (JList [JStr "bad id"]))).
Proof.
  split.
  - apply (proj1 (embedded_error_raises_ApiError default_limits)
             (always (response 201 (quoted "[{'error': 1}, 2]")))
             api_url "post" 10%Z (Some [("title", Scalar (SStr "x"))]) None fresh_process
             (response 201 (quoted "[{'error': 1}, 2]"))
             (JList [JDict [("error", JInt 1)]; JInt 2]) [("error", JInt 1)]).
    + answered.
    + unfold successful; cbn; lia.
    + reflexivity.
    + right. eexists. reflexivity.
    + right. reflexivity.
    + reflexivity.
  - apply (proj2 (embedded_error_raises_ApiError default_limits)
             (always (response 200 error_body)) api_url "GET" 10%Z None None fresh_process
             (response 200 error_body)).
    + answered.
    + reflexivity.
    + reflexivity.
Defined.

Lemma http_failure_raises_ApiError_witness :
  fst (request_url default_limits (always (response 404 error_body)) api_url "get" 10 None None fresh_process)
  = Raise (ApiError (OfResponse (response 404 error_body)))
  /\ decoder_calls
       (events_of_call fresh_process
          (snd (request_url default_limits (always (response 404 error_body)) api_url "get" 10 None None
                  fresh_process)))
     = [].
Proof.
  apply ((http_failure_raises_ApiError default_limits) (always (response 404 error_body))
           api_url "get" 10%Z None None fresh_process (response 404 error_body)).
  - answered.
  - reflexivity.
Defined.

Lemma non_json_body_returned_as_text_witness :
  fst (request_url default_limits (always (response 204 "<html>maintenance</html>"))
         api_url "delete" 10 None None fresh_process)
  = Return (JStr "<html>maintenance</html>")
  /\ fst (request_url default_limits (always (response 200 "pong"))
            "https://api.mangadex.org/ping" "GET" 10 None None fresh_process)
     = Return (JStr "pong").
Proof.
  split.
  - apply (proj1 (non_json_body_returned_as_text default_limits)
             (always (response 204 "<html>maintenance</html>"))
             api_url "delete" 10%Z None None fresh_process
             (response 204 "<html>maintenance</html>")).
    + answered.
    + unfold successful; cbn; lia.
    + reflexivity.
    + reflexivity.
  - apply (proj2 (non_json_body_returned_as_text default_limits)
             (always (response 200 "pong"))
             "https://api.mangadex.org/ping" "GET" 10%Z None None fresh_process
             (response 200 "pong")).
    + answered.
    + reflexivity.
    + reflexivity.
Defined.

(** C4, counterexample: three responses with a successful status and a
    body that does not parse as JSON, for which request_url returns no
    text.  The body of [garbled] is not UTF-8, and the call raises
    UnicodeDecodeError.  The body [deep_body] makes json.loads raise
    RecursionError, and the body [long_body] makes it raise the ValueError
    of the digit limit; both are well-formed UTF-8, and the call raises
    what json.loads raised. *)
Lemma non_json_body_not_always_text :
  (answered_with (always garbled) fresh_process
     (snd (request_url default_limits (always garbled) api_url "GET" 10 None None
             fresh_process)) garbled
   /\ successful garbled
   /\ body_json default_limits (content garbled) = None
   /\ fst (request_url default_limits (always garbled) api_url "GET" 10 None None
             fresh_process)
      = Raise UnicodeDecodeError
   /\ ~ (exists text,
           fst (request_url default_limits (always garbled) api_url "GET" 10 None None
                  fresh_process)
           = Return (JStr text)))
  /\ (answered_with (always (response 200 deep_body)) fresh_process
        (snd (request_url default_limits (always (response 200 deep_body)) api_url "GET" 10
                None None fresh_process)) (response 200 deep_body)
      /\ successful (response 200 deep_body)
      /\ decode_utf8 (content (response 200 deep_body)) = Some deep_body
      /\ body_json default_limits (content (response 200 deep_body)) = None
      /\ fst (request_url default_limits (always (response 200 deep_body)) api_url "GET" 10
                None None fresh_process)
         = Raise RecursionError)
  /\ (answered_with (always (response 200 long_body)) fresh_process
        (snd (request_url default_limits (always (response 200 long_body)) api_url "GET" 10
                None None fresh_process)) (response 200 long_body)
      /\ successful (response 200 long_body)
      /\ decode_utf8 (content (response 200 long_body)) = Some long_body
      /\ body_json default_limits (content (response 200 long_body)) = None
      /\ fst (request_url default_limits (always (response 200 long_body)) api_url "GET" 10
                None None fresh_process)
         = Raise (ValueError (int_of_str_message 4300 4301))).
Proof.
  split; [|split].
  - split; [answered|].
    split; [unfold successful; cbn; lia|].
    split; [reflexivity|].
    split; [reflexivity|].
    intros [text H]. discriminate H.
  - split; [answered|].
    split; [unfold successful; cbn [status_code response]; lia|].
    split; [vm_compute; reflexivity|].
    split; vm_compute; reflexivity.
  - split; [answered|].
    split; [unfold successful; cbn [status_code response]; lia|].
    split; [vm_compute; reflexivity|].
    split; vm_compute; reflexivity.
Qed.

Lemma clean_payload_returned_unchanged_witness :
  fst (request_url default_limits (always (response 200 "42")) api_url "GET" 10 None None fresh_process)
  = Return (JInt 42)
  /\ fst (request_url default_limits (always (response 200 (quoted "[{'id': 1}, {'error': 'x'}]")))
            api_url "GET" 10 None None fresh_process)
     = Return (JList [JDict [("id", JInt 1)]; JDict [("error", JStr "x")]])
  /\ (forall v,
        fst (request_url default_limits (always (response 200 (quoted "{'data':[1,2,3]}")))
               api_url "GET" 10 None None fresh_process)
        = Return v ->
        v = JDict [("data", JList [JInt 1; JInt 2; JInt 3])]).
Proof.
  destruct (clean_payload_returned_unchanged default_limits) as (Scalars & Clean & Same).
  split; [|split].
  - apply (Scalars (always (response 200 "42")) api_url "GET" 10%Z None None fresh_process
             (response 200 "42")).
    + answered.
    + unfold successful; cbn; lia.
    + reflexivity.
    + reflexivity.
  - apply (Clean (always (response 200 (quoted "[{'id': 1}, {'error': 'x'}]")))
             api_url "GET" 10%Z None None fresh_process
             (response 200 (quoted "[{'id': 1}, {'error': 'x'}]")) _ fresh_process).
    + answered.
    + unfold successful; cbn; lia.
    + reflexivity.
    + reflexivity.
  - intros v Hv.
    apply (Same (always (response 200 (quoted "{'data':[1,2,3]}")))
             api_url "GET" 10%Z None None fresh_process
             (response 200 (quoted "{'data':[1,2,3]}"))).
    + answered.
    + unfold successful; cbn; lia.
    + reflexivity.
    + exact Hv.
Defined.

Lemma unsupported_method_rejected_witness :
  transports
    (events_of_call fresh_process
       (snd (request_url default_limits (always (response 200 "pong")) api_url "PaTcH" 10
               (Some [("title", Scalar (SBytes [x6f; x6b]))]) None fresh_process)))
  = []
  /\ (exists e,
        fst (request_url default_limits (always (response 200 "pong")) api_url "PaTcH" 10
               (Some [("title", Scalar (SBytes [x6f; x6b]))]) None fresh_process)
        = Raise e /\ InvalidMethod e)
  /\ fst (request_url default_limits (always (response 200 "pong")) api_url "head" 10
            (Some [("title", Scalar (SBytes [xc3]))]) None fresh_process)
     = Raise UnicodeDecodeError.
Proof.
  pose proof (proj1 (unsupported_method_rejected default_limits) (always (response 200 "pong"))
                api_url "PaTcH" 10%Z (Some [("title", Scalar (SBytes [x6f; x6b]))]) None
                fresh_process
                (proj2 (unsupported_method_rejected default_limits) "PaTcH" eq_refl)) as (Quiet & Invalid & _).
  split; [exact Quiet|].
  split; [exact (Invalid eq_refl)|].
  exact (proj2 (proj2 (proj1 (unsupported_method_rejected default_limits) (always (response 200 "pong"))
                         api_url "head" 10%Z (Some [("title", Scalar (SBytes [xc3]))]) None
                         fresh_process eq_refl)) eq_refl).
Defined.

(** C3, counterexample: with the unsupported method patch and a parameter
    whose byte-string value is not UTF-8, request_url does not fail with
    the invalid-method error: it raises UnicodeDecodeError. *)
Lemma unsupported_method_other_error :
  supported_method "patch" = false
  /\ fst (request_url default_limits (always (response 200 "pong")) api_url "patch" 10
            (Some [("title", Scalar (SBytes [xff]))]) None fresh_process)
     = Raise UnicodeDecodeError
  /\ ~ (exists e,
          fst (request_url default_limits (always (response 200 "pong")) api_url "patch" 10
                 (Some [("title", Scalar (SBytes [xff]))]) None fresh_process)
          = Raise e /\ InvalidMethod e).
Proof.
  split; [reflexivity|]. split; [reflexivity|].
  intros (e & He & m & Hm). vm_compute in He. injection He as <-. discriminate Hm.
Qed.

Lemma null_value_key_absent_witness :
  ~ In "offset" (map fst (params_tuple
                            [("limit", Scalar (SInt 5)); ("offset", Scalar SNone)]))
  /\ query_pairs (__encode_parameters
                    [("limit", Scalar (SInt 5)); ("offset", Scalar SNone)])
     = [("limit", "5")].
Proof.
  split.
  - apply ((null_value_key_absent default_limits) [("limit", Scalar (SInt 5)); ("offset", Scalar SNone)]
             "offset").
    + repeat constructor; cbn; intuition discriminate.
    + reflexivity.
  - reflexivity.
Defined.

Lemma sequence_value_expands_in_order_witness :
  with_key "ids[]"
    (params_tuple [("limit", Scalar (SInt 2));
                   ("ids[]", PyList [SStr "a"; SStr "b"; SStr "c"]);
                   ("order", PyTuple [SStr "asc"])])
  = [("ids[]", SStr "a"); ("ids[]", SStr "b"); ("ids[]", SStr "c")]
  /\ __encode_parameters [("limit", Scalar (SInt 2));
                          ("ids[]", PyList [SStr "a"; SStr "b"; SStr "c"]);
                          ("order", PyTuple [SStr "asc"])]
     = "limit=2&ids%5B%5D=a&ids%5B%5D=b&ids%5B%5D=c&order=asc".
Proof.
  split.
  - apply (sequence_value_expands_in_order
             [("limit", Scalar (SInt 2))] [("order", PyTuple [SStr "asc"])]
             "ids[]" (PyList [SStr "a"; SStr "b"; SStr "c"]) (SStr "a") (SStr "b") (SStr "c")).
    + repeat constructor; cbn; intuition discriminate.
    + left. reflexivity.
  - reflexivity.
Defined.

Lemma bytes_encode_like_their_text_witness :
  __encode_parameters [("title", Scalar (SBytes [x63; xc3; xa9]));
                       ("tags", PyList [SBytes [x61; x20; x62]; SInt 7])]
  = __encode_parameters [("title", Scalar (SStr (string_of_list_byte [x63; xc3; xa9])));
                         ("tags", PyList [SStr "a b"; SInt 7])]
  /\ __encode_parameters [("title", Scalar (SBytes [x63; xc3; xa9]));
                          ("tags", PyList [SBytes [x61; x20; x62]; SInt 7])]
     = "title=c%C3%A9&tags=a+b&tags=7".
Proof.
  split.
  - apply ((bytes_encode_like_their_text default_limits)
             [("title", Scalar (SBytes [x63; xc3; xa9]));
              ("tags", PyList [SBytes [x61; x20; x62]; SInt 7])]
             [("title", Scalar (SStr (string_of_list_byte [x63; xc3; xa9])));
              ("tags", PyList [SStr "a b"; SInt 7])]).
    repeat constructor.
  - reflexivity.
Defined.

Lemma empty_mapping_url_unmodified_witness :
  map target
    (transports
       (events_of_call fresh_process
          (snd (request_url default_limits (always (response 200 "pong")) api_url "get" 10 (Some []) None
                  fresh_process))))
  = [api_url].
Proof.
  apply ((empty_mapping_url_unmodified default_limits) (always (response 200 "pong")) api_url "get" 10%Z
           (Some []) None fresh_process); reflexivity.
Defined.

(** C8, counterexample: the mapping with the one entry title: None encodes
    to no pair at all, and the GET request goes to the URL with a question
    mark at its end. *)
Lemma all_null_mapping_gets_question_mark :
  params_tuple [("title", Scalar SNone)] = []
  /\ map target
       (transports
          (events_of_call fresh_process
             (snd (request_url default_limits (always (response 200 "pong")) api_url "GET" 10
                     (Some [("title", Scalar SNone)]) None fresh_process))))
     = ["https://api.mangadex.org/manga?"]
  /\ "https://api.mangadex.org/manga?" <> api_url.
Proof.
  split; [reflexivity|]. split; [reflexivity|]. discriminate.
Qed.

Lemma session_is_lazy_singleton_witness :
  (exists s, fst (_get_session fresh_process) = Return s
             /\ session_id s = 0
             /\ _get_session (run default_limits two_requests (snd (_get_session fresh_process)))
                = (Return s, run default_limits two_requests (snd (_get_session fresh_process)))
             /\ map (fun q => session_id (via q))
                  (transports (trace (run default_limits two_requests fresh_process)))
                = [0; 0]).
Proof.
  destruct (session_is_lazy_singleton default_limits) as (_ & Created & Same & _).
  destruct (Created fresh_process eq_refl) as (s & a & Hs & _).
  exists s. split; [exact Hs|].
  split; [now injection Hs as <-|].
  split; [exact (proj1 (Same fresh_process s two_requests Hs))|reflexivity].
Defined.

(** ** The further properties *)

Lemma transport_failure_logged_and_raised_witness :
  events_of_call fresh_process
    (snd (request_url default_limits (fun _ => Failed ReadTimeout) api_url "get" 10
            (Some [("title", Scalar (SStr "x"))]) None fresh_process))
  = [EvTransport {| via := mount "https://"
                             {| adapter_id := 3; pool_connections := 100;
                                pool_maxsize := 100; max_retries := 3;
                                pool_block := true |}
                             (mount "http://"
                                {| adapter_id := 3; pool_connections := 100;
                                   pool_maxsize := 100; max_retries := 3;
                                   pool_block := true |}
                                (new_session 0));
                    method_of := GET;
                    target := "https://api.mangadex.org/manga?title=x";
                    query := None; data := None;
                    req_headers := None; req_timeout := 10 |};
     EvLogException "[URLRequest] Falha na requisição GET https://api.mangadex.org/manga"].
Proof.
  apply ((transport_failure_logged_and_raised default_limits) (fun _ => Failed ReadTimeout) api_url "get"
           10%Z (Some [("title", Scalar (SStr "x"))]) None fresh_process _ ReadTimeout).
  - vm_compute. left. reflexivity.
  - reflexivity.
Defined.

Lemma call_ends_by_stage_witness :
  fst (request_url tight_limits (always (response 200 "pong")) api_url "get" 10
         (Some [("limit", Scalar (SInt (10 ^ 640)))]) None fresh_process)
  = Raise (ValueError (str_of_int_message 640))
  /\ fst (request_url tight_limits
            (fun _ => Raised (ValueError "Attempted to set connect timeout to 0"))
            api_url "get" 0 None None fresh_process)
     = Raise (ValueError "Attempted to set connect timeout to 0")
  /\ result_of_answer
       (fst (request_url tight_limits (always (response 200 (sevens 641))) api_url "get" 10
               None None fresh_process))
     = true.
Proof.
  destruct (call_ends_by_stage tight_limits (always (response 200 "pong")) api_url "get"
              10%Z (Some [("limit", Scalar (SInt (10 ^ 640)))]) None fresh_process)
    as (Unsent & _ & _).
  destruct (call_ends_by_stage tight_limits
              (fun _ => Raised (ValueError "Attempted to set connect timeout to 0"))
              api_url "get" 0%Z None None fresh_process)
    as (_ & Passed & _).
  destruct (call_ends_by_stage tight_limits (always (response 200 (sevens 641))) api_url
              "get" 10%Z None None fresh_process)
    as (_ & _ & Answered).
  split; [|split].
  - destruct (Unsent eq_refl) as (e & He & _). rewrite He.
    vm_compute in He. injection He as <-. vm_compute. reflexivity.
  - apply (Passed _ _ (or_introl eq_refl) eq_refl).
  - apply (Answered (response 200 (sevens 641))). answered.
Defined.

Lemma supported_call_sends_one_request_witness :
  (exists q,
     transports
       (events_of_call fresh_process
          (snd (request_url default_limits (always (response 200 "pong")) api_url "Put" 10
                  (Some [("title", Scalar (SBytes [x6f; x6b]));
                         ("tags", PyList [SBytes [x61]])])
                  (Some [("Authorization", "Bearer t")]) fresh_process)))
     = [q]
     /\ method_of q = PUT
     /\ target q = api_url
     /\ query q = Some [("title", Scalar (SStr "ok")); ("tags", PyList [SBytes [x61]])]
     /\ req_headers q = Some [("Authorization", "Bearer t")])
  /\ transports
       (events_of_call fresh_process
          (snd (request_url default_limits (always (response 200 "pong")) api_url "get" 10
                  (Some [("title", Scalar (SStr (string_of_list_byte [xed; xa0; x80])))])
                  None fresh_process)))
     = []
  /\ fst (request_url default_limits (always (response 200 "pong")) api_url "get" 10
            (Some [("title", Scalar (SStr (string_of_list_byte [xed; xa0; x80])))])
            None fresh_process)
     = Raise UnicodeEncodeError.
Proof.
  split.
  - destruct (proj1 (supported_call_sends_one_request default_limits
                       (always (response 200 "pong")) api_url "Put" 10%Z
                       (Some [("title", Scalar (SBytes [x6f; x6b]));
                              ("tags", PyList [SBytes [x61]])])
                       (Some [("Authorization", "Bearer t")]) fresh_process eq_refl)
                eq_refl (fun _ => eq_refl))
      as (q & Hq & _).
    exists q. split; [exact Hq|].
    vm_compute in Hq. injection Hq as <-. repeat split.
  - apply (proj2 (supported_call_sends_one_request default_limits
                    (always (response 200 "pong")) api_url "get" 10%Z
                    (Some [("title", Scalar (SStr (string_of_list_byte [xed; xa0; x80])))])
                    None fresh_process eq_refl)
             UnicodeEncodeError); reflexivity.
Defined.

Lemma parameters_decoded_even_when_unused_witness :
  fst (request_url default_limits (always (response 200 "pong")) api_url "delete" 10
         (Some [("title", Scalar (SBytes [xff]))]) None fresh_process)
  = Raise UnicodeDecodeError
  /\ request_url default_limits (always (response 200 "pong")) api_url "delete" 10
       (Some [("title", Scalar (SStr "x"))]) None fresh_process
     = request_url default_limits (always (response 200 "pong")) api_url "delete" 10 None None fresh_process.
Proof.
  split.
  - apply (proj1 (parameters_decoded_even_when_unused default_limits) (always (response 200 "pong"))
             api_url "delete" 10%Z (Some [("title", Scalar (SBytes [xff]))]) None
             fresh_process eq_refl).
  - apply (proj2 (parameters_decoded_even_when_unused default_limits) (always (response 200 "pong"))
             api_url "delete" 10%Z (Some [("title", Scalar (SStr "x"))]) None None
             fresh_process); reflexivity.
Defined.

Lemma decoding_keeps_the_mapping_witness :
  keys [("title", Scalar (SStr "ok")); ("tags", PyList [SBytes [x61]])]
  = keys [("title", Scalar (SBytes [x6f; x6b])); ("tags", PyList [SBytes [x61]])].
Proof.
  apply (decoding_keeps_the_mapping
           [("title", Scalar (SBytes [x6f; x6b])); ("tags", PyList [SBytes [x61]])]
           [("title", Scalar (SStr "ok")); ("tags", PyList [SBytes [x61]])]).
  reflexivity.
Defined.


Lemma inspection_stops_at_first_element_witness :
  fst (_check_api_error
         (JList [JList [JDict [("result", JStr "error")]]; JDict [("error", JNull)]])
         fresh_process)
  = Return tt.
Proof.
  apply (proj2 inspection_stops_at_first_element). discriminate.
Defined.

Lemma parse_data_text_or_bytes_witness :
  __parse_data default_limits (AsBytes (encode_utf8 error_body)) fresh_process
  = __parse_data default_limits (AsStr error_body) fresh_process
  /\ __parse_data default_limits (AsBytes [x70; xff]) fresh_process
     = (Raise UnicodeDecodeError, fresh_process).
Proof.
  split.
  - apply (proj1 (parse_data_text_or_bytes default_limits) error_body fresh_process). reflexivity.
  - apply (proj2 (proj2 (parse_data_text_or_bytes default_limits)) [x70; xff] fresh_process). reflexivity.
Defined.

Lemma text_and_json_string_alike_witness :
  fst (request_url default_limits (always (response 200 "pong")) api_url "GET" 10 None None
         fresh_process)
  = Return (JStr "pong")
  /\ fst (request_url default_limits (always (response 200 (quoted "'pong'"))) api_url "GET"
            10 None None fresh_process)
     = Return (JStr "pong").
Proof.
  apply (text_and_json_string_alike default_limits
           (always (response 200 "pong")) api_url "GET" 10%Z None None fresh_process
           (always (response 200 (quoted "'pong'"))) api_url "GET" 10%Z None None
           fresh_process
           (response 200 "pong") (response 200 (quoted "'pong'")) "pong");
    try reflexivity; answered.
Defined.

Lemma encoding_empty_iff_witness :
  __encode_parameters [("a", Scalar SNone); ("b", PyList []); ("c", PyTuple [])]
  = EmptyString
  /\ forallb (fun kv => adds_nothing (snd kv)) [("a", Scalar (SStr EmptyString))] = false.
Proof.
  split.
  - apply (proj2 (encoding_empty_iff
                    [("a", Scalar SNone); ("b", PyList []); ("c", PyTuple [])])).
    reflexivity.
  - destruct (forallb (fun kv => adds_nothing (snd kv)) [("a", Scalar (SStr EmptyString))])
      eqn:E; [|reflexivity].
    apply (proj2 (encoding_empty_iff [("a", Scalar (SStr EmptyString))])) in E.
    discriminate E.
Defined.

Lemma get_url_unmodified_iff_witness :
  map target
    (transports
       (events_of_call fresh_process
          (snd (request_url default_limits (always (response 200 "pong"))
                  "https://api.mangadex.org/manga?limit=1" "get" 10
                  (Some [("offset", Scalar (SInt 2))]) None fresh_process))))
  = ["https://api.mangadex.org/manga?limit=1?offset=2"].
Proof.
  pose proof (fun q =>
                (get_url_unmodified_iff default_limits) (always (response 200 "pong"))
                  "https://api.mangadex.org/manga?limit=1" "get" 10%Z
                  (Some [("offset", Scalar (SInt 2))]) None fresh_process q eq_refl) as H.
  remember (transports
              (events_of_call fresh_process
                 (snd (request_url default_limits (always (response 200 "pong"))
                         "https://api.mangadex.org/manga?limit=1" "get" 10
                         (Some [("offset", Scalar (SInt 2))]) None fresh_process))))
    as l eqn:E in *.
  vm_compute in E. subst l. cbn [map].
  rewrite (proj2 (H _ (or_introl eq_refl))) by discriminate. reflexivity.
Defined.
